(** * Alert notification path of the prober: [probes/alerting/notify.go]

    A shallow embedding of [alertFields], [notify] and [notifyCommand], and
    the properties of the field mapping, of the order of effects and of the
    error paths that the specification states about them.

    Strings are [string] (a Go string is a byte sequence), Go's [int] is [Z]
    (no arithmetic is done on the counters, they are only copied and
    printed), [map[string]string] is [gmap string string], where the nil map
    reads as the empty map.  The effects of [notify] (log lines, the store to
    [ts.alerted], the channel send, the process start) are threaded through a
    state monad whose world carries the per-target state, the channel buffer
    and the trace of effects in program order. *)

From Stdlib Require Import ZArith String Ascii List DecimalString.
From Stdlib Require Import DecimalZ DecimalPos ssreflect.
From stdpp Require Import base option gmap strings list fin_maps sorting.

#[local] Set Warnings "-rewrite-rw,-clear-no-such-hyp".

Local Open Scope Z_scope.
Local Open Scope string_scope.
Local Open Scope list_scope.

(** ** Library values *)

(** Go's [error], identified with its message ([err.Error()]). *)
Definition error : Type := string.

(** [fmt.Errorf(prefix + "%v", err)]: the verb [%v] prints [err.Error()]. *)
Definition fmt_Errorf (prefix : string) (err : error) : error := prefix +:+ err.

(** [strconv.Itoa]: the decimal rendering of an integer. *)
Definition Itoa (i : Z) : string := NilZero.string_of_int (Z.to_int i).

(** The inverse reading, [strconv.Atoi] on well-formed input. *)
Definition Atoi (s : string) : option Z := Z.of_int <$> NilZero.int_of_string s.

(** [strings.Join]. *)
Definition strings_Join (elems : list string) (sep : string) : string :=
  String.concat sep elems.

Module time.

(** A [time.Time] in the civil form that [Format] prints: the date and the
    clock in the value's own zone, and the zone's offset east of UTC in
    seconds. *)
Record Time := {
  Year : Z; Month : Z; Day : Z;
  Hour : Z; Minute : Z; Second : Z;
  Offset : Z
}.

Fixpoint zeros (n : nat) : string :=
  match n with O => "" | S n => "0" +:+ zeros n end.

(** [appendInt(b, x, width)]: the sign of a negative [x], then the digits of
    its absolute value, padded with zeros to [width] digits. *)
Definition pad (width : nat) (x : Z) : string :=
  let d := Itoa (Z.abs x) in
  (if (x <? 0)%Z then "-" else "") +:+ zeros (width - String.length d) +:+ d.

(** The zone of layout [Z07:00]: [Z] for the offset 0; else the offset in
    minutes, truncated as Go's division does, with its sign, as hours and
    minutes. *)
Definition zone (offset : Z) : string :=
  if (offset =? 0)%Z then "Z"
  else
    let zone := Z.quot offset 60 in
    let m := Z.abs zone in
    (if (zone <? 0)%Z then "-" else "+") +:+ pad 2 (m / 60) +:+ ":" +:+ pad 2 (m mod 60).

(** [t.Format(time.RFC3339)], layout [2006-01-02T15:04:05Z07:00]. *)
Definition Format_RFC3339 (t : Time) : string :=
  pad 4 (Year t) +:+ "-" +:+ pad 2 (Month t) +:+ "-" +:+ pad 2 (Day t) +:+ "T" +:+
  pad 2 (Hour t) +:+ ":" +:+ pad 2 (Minute t) +:+ ":" +:+ pad 2 (Second t) +:+
  zone (Offset t).

End time.

Module endpoint.

(** [endpoint.Endpoint], with the fields this file reads. *)
Record Endpoint := {
  Name : string;
  Labels : gmap string string
}.

End endpoint.

Module exec.

(** [exec.Cmd]: the resolved executable and the argument vector. *)
Record Cmd := {
  Path : string;
  Args : list string
}.

End exec.

(** [context.Context]; cancellation is outside this development. *)
Inductive Context_ := Background.

(** ** The data of [notify.go] *)

(** AlertInfo contains information about an alert. *)
Record AlertInfo := {
  Name : string;
  ProbeName : string;
  ConditionID : string;
  Target : endpoint.Endpoint;
  Failures : Z;
  Total : Z;
  FailingSince : time.Time
}.

(** The per-target state, as [notify] uses it. *)
Record targetState := {
  alerted : bool;
  failingSince : time.Time;
  conditionID : string
}.

Module configpb.

Record Condition := {
  Failures : Z;
  Total : Z
}.

Record NotifyConfig := {
  Command : string
}.

End configpb.

(** [AlertHandler], with the fields [notify] reads.  [notifyCh] is [None]
    for a nil channel and [Some cap] for a channel of capacity [cap];
    [notifyConfig] is [None] for a nil pointer.  The logger [ah.l] is the
    trace of the world. *)
Record AlertHandler := {
  name : string;
  probeName : string;
  condition : configpb.Condition;
  notifyCh : option nat;
  notifyConfig : option configpb.NotifyConfig
}.

(** ** Collaborators that live outside [notify.go]

    The destination accessor of the endpoint, the JSON encoder, the label
    substitution, the shell tokenizer, the executable lookup and the process
    start are called by this file and defined elsewhere.  The program below
    is written over this interface. *)
Class Env := {
  (** [ep.Dst()] *)
  Dst : endpoint.Endpoint -> string;
  (** [json.Marshal(fields)]: the bytes and the error. *)
  json_Marshal : gmap string string -> string * option error;
  (** [strtemplate.SubstituteLabels(in, labels)]: the result and [foundAll]. *)
  SubstituteLabels : string -> gmap string string -> string * bool;
  (** [shlex.Split(s)]: the words and the error. *)
  shlex_Split : string -> list string * option error;
  (** the path [exec.Command] stores in [cmd.Path] for a command name. *)
  LookPath : string -> string;
  (** the result of [cmd.Start()]: nil when the process was started. *)
  os_Start : exec.Cmd -> option error
}.

(** ** Effects *)

Inductive Level := INFO | WARNING | ERROR.

(** An argument of a formatted log line. *)
Inductive Arg :=
| AStr (s : string)
| AInt (i : Z)
| ATime (t : time.Time)
| AErr (e : error)
| AStrs (l : list string).

(** The observable effects, in the order the program performs them. *)
Inductive Event :=
| Log (lvl : Level) (format : string) (args : list Arg)
| StoreAlerted (b : bool)
| ChanSend (ai : AlertInfo)
| CmdStart (cmd : exec.Cmd).

(** A run-time panic of the Go program: [index out of range [i] with length
    n] and [slice bounds out of range [i:n]]. *)
Inductive Panic :=
| IndexOutOfRange (index length : nat)
| SliceBoundsOutOfRange (low length : nat).

(** How a call ends: it returns, it panics, or it stays parked at a channel
    send for which the channel has no room. *)
Inductive Outcome (A : Type) :=
| Returned (a : A)
| Panicked (p : Panic)
| Parked.
Arguments Returned {A} a.
Arguments Panicked {A} p.
Arguments Parked {A}.

(** The world a call runs in: the pointee of [ts], the messages queued on
    the notification channel, and the effects so far. *)
Record World := {
  ts : targetState;
  chan : list AlertInfo;
  trace : list Event
}.

Definition M (A : Type) : Type := World -> Outcome A * World.

#[global] Instance M_ret : MRet M := fun A a w => (Returned a, w).

#[global] Instance M_bind : MBind M := fun A B f m w =>
  match m w with
  | (Returned a, w') => f a w'
  | (Panicked p, w') => (Panicked p, w')
  | (Parked, w') => (Parked, w')
  end.

Definition emit (e : Event) : M unit := fun w =>
  (Returned tt, {| ts := ts w; chan := chan w; trace := trace w ++ [e] |}).

Definition Infof (format : string) (args : list Arg) : M unit := emit (Log INFO format args).
Definition Warningf (format : string) (args : list Arg) : M unit := emit (Log WARNING format args).
Definition Errorf (format : string) (args : list Arg) : M unit := emit (Log ERROR format args).

(** [*ts]. *)
Definition load_ts : M targetState := fun w => (Returned (ts w), w).

(** [ts.alerted = b]: the other fields of the pointee are kept. *)
Definition store_alerted (b : bool) : M unit := fun w =>
  (Returned tt,
   {| ts := {| alerted := b; failingSince := failingSince (ts w); conditionID := conditionID (ts w) |};
      chan := chan w;
      trace := trace w ++ [StoreAlerted b] |}).

(** [ch <- ai] on a channel with room for [cap] messages (the buffer, or a
    receiver that waits): the message is queued when there is room, else
    the goroutine parks. *)
Definition chan_send (cap : nat) (ai : AlertInfo) : M unit := fun w =>
  if bool_decide (length (chan w) < cap)%nat
  then (Returned tt, {| ts := ts w; chan := chan w ++ [ai]; trace := trace w ++ [ChanSend ai] |})
  else (Parked, w).

(** [s[i]] on a slice: panics out of range. *)
Definition index {A} (s : list A) (i : nat) : M A := fun w =>
  match s !! i with
  | Some x => (Returned x, w)
  | None => (Panicked (IndexOutOfRange i (length s)), w)
  end.

(** [s[i:]] on a slice: panics when [i] is beyond the length. *)
Definition slice_from {A} (s : list A) (i : nat) : M (list A) := fun w =>
  if bool_decide (i ≤ length s)%nat
  then (Returned (drop i s), w)
  else (Panicked (SliceBoundsOutOfRange i (length s)), w).

(** [if cond { body }] for a body without result. *)
Definition when (cond : bool) (body : M unit) : M unit :=
  if cond then body else mret tt.

(** ** The program *)

Section Program.
Context {env : Env}.

(** The map literal of [alertFields]. *)
Definition reservedFields (alertInfo : AlertInfo) : gmap string string :=
  <["alert" := Name alertInfo]> (
  <["probe" := ProbeName alertInfo]> (
  <["target" := Dst (Target alertInfo)]> (
  <["condition_id" := ConditionID alertInfo]> (
  <["failures" := Itoa (Failures alertInfo)]> (
  <["total" := Itoa (Total alertInfo)]> (
  <["since" := time.Format_RFC3339 (FailingSince alertInfo)]> ∅)))))).

(** [for k, v := range labels { fields["target.label."+k] = v }], the
    labels visited in the order of [kvs]. *)
Definition rangeLabels (kvs : list (string * string)) (fields : gmap string string)
  : gmap string string :=
  foldl (fun fields kv => <["target.label." +:+ kv.1 := kv.2]> fields) fields kvs.

(** The mapping of [alertFields] before the [json] key is added. *)
Definition labelledFields (alertInfo : AlertInfo) : gmap string string :=
  rangeLabels (map_to_list (endpoint.Labels (Target alertInfo))) (reservedFields alertInfo).

Definition alertFields (alertInfo : AlertInfo) : gmap string string * option error :=
  let fields := labelledFields alertInfo in
  let '(alertJSON, err) := json_Marshal fields in
  match err with
  | Some err => (∅, Some (fmt_Errorf "error marshalling alert fields into json: " err))
  | None => (<["json" := alertJSON]> fields, None)
  end.

(** [exec.CommandContext(ctx, name, arg...)]. *)
Definition exec_CommandContext (ctx : Context_) (name : string) (arg : list string) : exec.Cmd :=
  {| exec.Path := LookPath name; exec.Args := name :: arg |}.

(** [cmd.Start()]. *)
Definition cmd_Start (cmd : exec.Cmd) : M (option error) :=
  emit (CmdStart cmd);; mret (os_Start cmd).

Definition notifyCommand (ctx : Context_) (command : string) (fields : gmap string string)
    (dryRun : bool) : M (list string) :=
  let '(res, foundAll) := SubstituteLabels command fields in
  when (negb foundAll)
    (Warningf "couldn't substitute all labels in command: %s" [AStr command]);;
  let command := res in
  let '(cmdParts, err) := shlex_Split command in
  match err with
  | Some err =>
      Errorf "Error parsing command line (%s): %v" [AStr command; AErr err];;
      mret []
  | None =>
      Infof "Starting external command: %s" [AStr (strings_Join cmdParts " ")];;
      (* The operands [cmdParts[0]] and [cmdParts[1:]] of the call: the
         language leaves their order open, and the compiled program checks
         the bounds of the slice first. *)
      args ← slice_from cmdParts 1;
      cmdParts0 ← index cmdParts 0;
      let cmd := exec_CommandContext ctx cmdParts0 args in
      if dryRun then mret (exec.Args cmd)
      else
        err ← cmd_Start cmd;
        match err with
        | Some err =>
            Errorf "error while starting the cmd: %s %s. Err: %v"
              [AStr (exec.Path cmd); AStrs (exec.Args cmd); AErr err];;
            mret []
        | None => mret []
        end
  end.

Definition notify (ah : AlertHandler) (ep : endpoint.Endpoint) (totalFailures : Z) : M unit :=
  ts0 ← load_ts;
  Warningf "ALERT (%s): target (%s), failures (%d) higher than (%d) since (%v)"
    [AStr (name ah); AStr (endpoint.Name ep); AInt totalFailures;
     AInt (configpb.Failures (condition ah)); ATime (failingSince ts0)];;
  store_alerted true;;
  ts1 ← load_ts;
  let alertInfo :=
    {| Name := name ah;
       ProbeName := probeName ah;
       ConditionID := conditionID ts1;
       Target := ep;
       Failures := totalFailures;
       Total := configpb.Total (condition ah);
       FailingSince := failingSince ts1 |} in
  match notifyCh ah with
  | Some cap => chan_send cap alertInfo
  | None => mret tt
  end;;
  let '(fields, err) := alertFields alertInfo in
  match err with
  | Some err => Errorf "Error getting alert fields: %v" [AErr err]
  | None => mret tt
  end;;
  match notifyConfig ah with
  | Some cfg =>
      if negb (String.eqb (configpb.Command cfg) "")
      then notifyCommand Background (configpb.Command cfg) fields false;; mret tt
      else mret tt
  | None => mret tt
  end.

End Program.

(** ** Instances of the collaborators

    Executable stand-ins for the collaborators, used to run the program on
    concrete inputs. *)

Module json.

Local Open Scope list_scope.

Definition dquote : ascii := ascii_of_N 34.

Definition hexdigit (n : N) : ascii :=
  nth (N.to_nat n) (list_ascii_of_string "0123456789abcdef") "0"%char.

Definition hexval (c : ascii) : option N :=
  let n := N_of_ascii c in
  if (48 <=? n)%N && (n <=? 57)%N then Some (n - 48)%N
  else if (97 <=? n)%N && (n <=? 102)%N then Some (n - 87)%N
  else if (65 <=? n)%N && (n <=? 70)%N then Some (n - 55)%N
  else None.

(** Whether the byte [b] lies between [lo] and [hi]. *)
Definition between (lo hi : N) (b : ascii) : bool :=
  (lo <=? N_of_ascii b)%N && (N_of_ascii b <=? hi)%N.

(** [utf8.DecodeRune]: the number of bytes of the well-formed UTF-8 sequence
    at the head of [s], and 0 when there is none (a stray or missing
    continuation byte, an overlong form, a surrogate, a value beyond
    U+10FFFF). *)
Definition runeSize (s : list ascii) : nat :=
  match s with
  | [] => 0%nat
  | b0 :: rest =>
      if between 0 127 b0 then 1%nat
      else if between 194 223 b0 then
        match rest with
        | b1 :: _ => if between 128 191 b1 then 2%nat else 0%nat
        | _ => 0%nat
        end
      else if between 224 239 b0 then
        match rest with
        | b1 :: b2 :: _ =>
            if between (if (N_of_ascii b0 =? 224) then 160 else 128)%N
                 (if (N_of_ascii b0 =? 237) then 159 else 191)%N b1
               && between 128 191 b2
            then 3%nat else 0%nat
        | _ => 0%nat
        end
      else if between 240 244 b0 then
        match rest with
        | b1 :: b2 :: b3 :: _ =>
            if between (if (N_of_ascii b0 =? 240) then 144 else 128)%N
                 (if (N_of_ascii b0 =? 244) then 143 else 191)%N b1
               && between 128 191 b2 && between 128 191 b3
            then 4%nat else 0%nat
        | _ => 0%nat
        end
      else 0%nat
  end.

(** [utf8.ValidString]. *)
Fixpoint valid (s : list ascii) : bool :=
  match s with
  | [] => true
  | _ :: rest =>
      match runeSize s, rest with
      | 1%nat, _ => valid rest
      | 2%nat, _ :: r1 => valid r1
      | 3%nat, _ :: _ :: r2 => valid r2
      | 4%nat, _ :: _ :: _ :: r3 => valid r3
      | _, _ => false
      end
  end.

(** Whether the bytes of a string are well-formed UTF-8. *)
Definition ValidString (s : string) : bool := valid (list_ascii_of_string s).

(** The escape of a byte below 0x80 of a string value: quote and backslash,
    the control characters (with the short forms of backspace, form feed,
    newline, carriage return and tab that the encoder writes since Go 1.22),
    and the characters [<], [>], [&] that the encoder escapes for HTML. *)
Definition escape_ascii (c : ascii) : list ascii :=
  let n := N_of_ascii c in
  if (n =? 34)%N then ["\"%char; dquote]
  else if (n =? 92)%N then ["\"; "\"]%char
  else if (n =? 8)%N then ["\"; "b"]%char
  else if (n =? 12)%N then ["\"; "f"]%char
  else if (n =? 10)%N then ["\"; "n"]%char
  else if (n =? 13)%N then ["\"; "r"]%char
  else if (n =? 9)%N then ["\"; "t"]%char
  else if (n <? 32)%N || (n =? 60)%N || (n =? 62)%N || (n =? 38)%N
  then ["\"; "u"; "0"; "0"; hexdigit (n / 16); hexdigit (n mod 16)]%char
  else [c].

(** The escape of U+FFFD, written for a byte that starts no well-formed
    sequence. *)
Definition replacement_escape : list ascii := ["\"; "u"; "f"; "f"; "f"; "d"]%char.

(** The bytes of U+2028 and of U+2029, which the encoder escapes. *)
Definition lineSeparator (b0 b1 b2 : ascii) : bool :=
  (N_of_ascii b0 =? 226)%N && (N_of_ascii b1 =? 128)%N
  && ((N_of_ascii b2 =? 168)%N || (N_of_ascii b2 =? 169)%N).

(** The body of a string value, as [appendString] with [escapeHTML] writes
    it: well-formed sequences are copied, but for the escapes of
    [escape_ascii] and of the two line separators, and every other byte
    becomes the escape of U+FFFD. *)
Fixpoint escape (s : list ascii) : list ascii :=
  match s with
  | [] => []
  | b0 :: rest =>
      match runeSize s, rest with
      | 1%nat, _ => escape_ascii b0 ++ escape rest
      | 2%nat, b1 :: r1 => b0 :: b1 :: escape r1
      | 3%nat, b1 :: b2 :: r2 =>
          if lineSeparator b0 b1 b2
          then ["\"; "u"; "2"; "0"; "2"; hexdigit (N_of_ascii b2 mod 16)]%char ++ escape r2
          else b0 :: b1 :: b2 :: escape r2
      | 4%nat, b1 :: b2 :: b3 :: r3 => b0 :: b1 :: b2 :: b3 :: escape r3
      | _, _ => replacement_escape ++ escape rest
      end
  end.

Definition quote (s : string) : list ascii :=
  dquote :: escape (list_ascii_of_string s) ++ [dquote].

Definition key_le (a b : string * string) : Prop := String.leb a.1 b.1 = true.

#[global] Instance key_le_dec a b : Decision (key_le a b).
Proof. unfold key_le. apply _. Defined.

Definition member (kv : string * string) : list ascii :=
  quote kv.1 ++ ":"%char :: quote kv.2.

Fixpoint join_members (kvs : list (string * string)) : list ascii :=
  match kvs with
  | [] => []
  | kv :: kvs =>
      match kvs with
      | [] => member kv
      | _ :: _ => member kv ++ ","%char :: join_members kvs
      end
  end.

(** The encoding of a string map: an object whose members are in the
    order of their keys.  It has no error case. *)
Definition Marshal (m : gmap string string) : string * option error :=
  (string_of_list_ascii
     ("{"%char :: join_members (merge_sort key_le (map_to_list m)) ++ ["}"%char]),
   None).

(** [utf8.EncodeRune]: the UTF-8 bytes of a code point, those of U+FFFD for
    a surrogate and for a value beyond U+10FFFF. *)
Definition utf8 (cp : N) : list ascii :=
  if (cp <? 128)%N then [ascii_of_N cp]
  else if (cp <? 2048)%N then
    [ascii_of_N (192 + cp / 64); ascii_of_N (128 + cp mod 64)]%N
  else if ((55296 <=? cp)%N && (cp <=? 57343)%N) || (1114111 <? cp)%N then
    [ascii_of_N 239; ascii_of_N 191; ascii_of_N 189]
  else if (cp <? 65536)%N then
    [ascii_of_N (224 + cp / 4096); ascii_of_N (128 + (cp / 64) mod 64);
     ascii_of_N (128 + cp mod 64)]%N
  else
    [ascii_of_N (240 + cp / 262144); ascii_of_N (128 + (cp / 4096) mod 64);
     ascii_of_N (128 + (cp / 64) mod 64); ascii_of_N (128 + cp mod 64)]%N.

Definition simple_escape (e : ascii) : option ascii :=
  let n := N_of_ascii e in
  if (n =? 34)%N then Some dquote
  else if (n =? 92)%N then Some "\"%char
  else if (n =? 47)%N then Some "/"%char
  else if (n =? 110)%N then Some (ascii_of_N 10)
  else if (n =? 114)%N then Some (ascii_of_N 13)
  else if (n =? 116)%N then Some (ascii_of_N 9)
  else if (n =? 98)%N then Some (ascii_of_N 8)
  else if (n =? 102)%N then Some (ascii_of_N 12)
  else None.

Definition hex4 (a b c d : ascii) : option N :=
  a ← hexval a; b ← hexval b; c ← hexval c; d ← hexval d;
  Some (((a * 16 + b) * 16 + c) * 16 + d)%N.

(** [getu4]: the value of an escape [\uXXXX] at the head of the input. *)
Definition getu4 (input : list ascii) : option N :=
  match input with
  | bs :: u :: h1 :: h2 :: h3 :: h4 :: _ =>
      if (N_of_ascii bs =? 92)%N && (N_of_ascii u =? 117)%N then hex4 h1 h2 h3 h4 else None
  | _ => None
  end.

(** [utf16.DecodeRune]: the code point of a pair of surrogates. *)
Definition surrogatePair (hi : N) (lo : option N) : option N :=
  match lo with
  | Some lo =>
      if (55296 <=? hi)%N && (hi <? 56320)%N && (56320 <=? lo)%N && (lo <? 57344)%N
      then Some ((hi - 55296) * 1024 + (lo - 56320) + 65536)%N
      else None
  | None => None
  end.

Definition prepend (bytes : list ascii) (r : option (list ascii * list ascii))
  : option (list ascii * list ascii) :=
  match r with
  | Some (s, rest) => Some (bytes ++ s, rest)
  | None => None
  end.

(** Reads a string value after its opening quote: the bytes of the value
    and the input after the closing quote.  Escapes are decoded, a pair of
    surrogate escapes gives one code point and a lone one gives U+FFFD, a
    byte that starts no well-formed sequence is read as U+FFFD, and a
    control character is an error. *)
Fixpoint unquote (input : list ascii) : option (list ascii * list ascii) :=
  match input with
  | [] => None
  | c :: rest =>
      let n := N_of_ascii c in
      if (n =? 34)%N then Some ([], rest)
      else if (n =? 92)%N then
        match rest with
        | [] => None
        | e :: rest1 =>
            match simple_escape e with
            | Some b => prepend [b] (unquote rest1)
            | None =>
                match rest1 with
                | h1 :: h2 :: h3 :: h4 :: rest2 =>
                    if (N_of_ascii e =? 117)%N then
                      match hex4 h1 h2 h3 h4 with
                      | Some cp =>
                          if (55296 <=? cp)%N && (cp <=? 57343)%N then
                            match surrogatePair cp (getu4 rest2), rest2 with
                            | Some cp2, _ :: _ :: _ :: _ :: _ :: _ :: rest3 =>
                                prepend (utf8 cp2) (unquote rest3)
                            | _, _ => prepend (utf8 65533) (unquote rest2)
                            end
                          else prepend (utf8 cp) (unquote rest2)
                      | None => None
                      end
                    else None
                | _ => None
                end
            end
        end
      else if (n <? 32)%N then None
      else
        match runeSize input, rest with
        | 1%nat, _ => prepend [c] (unquote rest)
        | 2%nat, b1 :: r1 => prepend [c; b1] (unquote r1)
        | 3%nat, b1 :: b2 :: r2 => prepend [c; b1; b2] (unquote r2)
        | 4%nat, b1 :: b2 :: b3 :: r3 => prepend [c; b1; b2; b3] (unquote r3)
        | _, _ => prepend (utf8 65533) (unquote rest)
        end
  end.

(** The white space between the tokens of a JSON text. *)
Definition isSpace (c : ascii) : bool :=
  let n := N_of_ascii c in
  (n =? 32)%N || (n =? 9)%N || (n =? 13)%N || (n =? 10)%N.

Fixpoint skip_ws (input : list ascii) : list ascii :=
  match input with
  | c :: rest => if isSpace c then skip_ws rest else input
  | [] => []
  end.

(** Reads a quoted string value: the value and the input after it. *)
Definition value (input : list ascii) : option (string * list ascii) :=
  match skip_ws input with
  | q :: rest =>
      if Ascii.eqb q dquote then
        match unquote rest with
        | Some (s, r) => Some (string_of_list_ascii s, r)
        | None => None
        end
      else None
  | [] => None
  end.

(** Reads the members of an object after its opening brace, up to the
    closing brace that ends the text. *)
Fixpoint members (fuel : nat) (input : list ascii) (acc : gmap string string)
  : option (gmap string string) :=
  match fuel with
  | O => None
  | S fuel =>
      match value input with
      | Some (k, r0) =>
          match skip_ws r0 with
          | colon :: r1 =>
              if Ascii.eqb colon ":" then
                match value r1 with
                | Some (v, r2) =>
                    match skip_ws r2 with
                    | sep :: r3 =>
                        let acc := <[k := v]> acc in
                        if Ascii.eqb sep "}" then
                          match skip_ws r3 with [] => Some acc | _ :: _ => None end
                        else if Ascii.eqb sep "," then members fuel r3 acc
                        else None
                    | [] => None
                    end
                | None => None
                end
              else None
          | [] => None
          end
      | None => None
      end
  end.

(** The decoding, into a string map, of a JSON text that is an object whose
    members are strings; a later member replaces an earlier one of the same
    name.  Any other text is [None]: the decoder rejects it, or reads it as
    something that is not a map of strings. *)
Definition Unmarshal (data : string) : option (gmap string string) :=
  match skip_ws (list_ascii_of_string data) with
  | open :: rest =>
      if Ascii.eqb open "{" then
        match skip_ws rest with
        | close :: r =>
            if Ascii.eqb close "}" then
              match skip_ws r with [] => Some ∅ | _ :: _ => None end
            else members (length rest) rest ∅
        | [] => None
        end
      else None
  | [] => None
  end.

End json.

Module strtemplate.

Local Open Scope list_scope.

(** Modelled from the spec: the label substitution ([SubstituteLabels] of
    [common/strtemplate], absent from the source tree).  It replaces every
    [{{fieldname}}] placeholder by the value of the field, leaves a
    placeholder without a field as literal text, and reports whether all
    placeholders were resolved.  [inside] holds the name read so far,
    reversed, once an opening [{{] was seen. *)
Fixpoint substitute (labels : gmap string string) (inside : option (list ascii))
    (input : list ascii) : list ascii * bool :=
  match input with
  | [] =>
      match inside with
      | None => ([], true)
      | Some k => ("{"%char :: "{"%char :: rev k, true)
      end
  | c :: rest =>
      match inside, rest with
      | None, c' :: rest' =>
          if Ascii.eqb c "{" && Ascii.eqb c' "{" then substitute labels (Some []) rest'
          else let '(out, foundAll) := substitute labels None rest in (c :: out, foundAll)
      | None, [] => ([c], true)
      | Some k, c' :: rest' =>
          if Ascii.eqb c "}" && Ascii.eqb c' "}" then
            let '(out, foundAll) := substitute labels None rest' in
            match labels !! string_of_list_ascii (rev k) with
            | Some v => (list_ascii_of_string v ++ out, foundAll)
            | None => ("{"%char :: "{"%char :: rev k ++ "}"%char :: "}"%char :: out, false)
            end
          else substitute labels (Some (c :: k)) rest
      | Some k, [] => substitute labels (Some (c :: k)) rest
      end
  end.

(** The substituted string and whether all placeholders were found. *)
Definition SubstituteLabels (input : string) (labels : gmap string string) : string * bool :=
  let '(out, foundAll) := substitute labels None (list_ascii_of_string input) in
  (string_of_list_ascii out, foundAll).

End strtemplate.

Module shlex.

Local Open Scope list_scope.

(** The classes of characters the tokenizer tells apart. *)
Inductive runeClass :=
| unknownRuneClass
| spaceRuneClass
| escapingQuoteRuneClass
| nonEscapingQuoteRuneClass
| escapeRuneClass
| commentRuneClass.

Definition ClassifyRune (c : ascii) : runeClass :=
  let n := N_of_ascii c in
  if (n =? 32)%N || (n =? 9)%N || (n =? 13)%N || (n =? 10)%N then spaceRuneClass
  else if (n =? 34)%N then escapingQuoteRuneClass
  else if (n =? 39)%N then nonEscapingQuoteRuneClass
  else if (n =? 92)%N then escapeRuneClass
  else if (n =? 35)%N then commentRuneClass
  else unknownRuneClass.

Inductive lexerState :=
| startState
| inWordState
| escapingState
| escapingQuotedState
| quotingEscapingState
| quotingState
| commentState.

(** Modelled from the spec: the command-line tokenizer ([shlex.Split],
    absent from the source tree), which splits a string into words by the
    rules of a shell: blanks separate words, single quotes keep their
    content, double quotes keep it up to backslash escapes, a backslash
    keeps the next character, [#] at the start of a word opens a comment
    that runs to the end of the line; an input that ends inside a quotation
    or after a backslash is an error.  The scan is in state [state], with
    the word read so far in [value] (reversed) and the words completed
    before it in [words] (reversed). *)
Fixpoint scan (state : lexerState) (value : list ascii) (words : list string)
    (input : list ascii) : list string * option error :=
  let word := string_of_list_ascii (rev value) in
  match input with
  | [] =>
      match state with
      | startState | commentState => (rev words, None)
      | inWordState => (rev (word :: words), None)
      | escapingState | escapingQuotedState =>
          (rev words, Some "EOF found after escape character"%string)
      | quotingEscapingState | quotingState =>
          (rev words, Some "EOF found when expecting closing quote"%string)
      end
  | c :: rest =>
      match state with
      | startState =>
          match ClassifyRune c with
          | spaceRuneClass => scan startState [] words rest
          | escapingQuoteRuneClass => scan quotingEscapingState [] words rest
          | nonEscapingQuoteRuneClass => scan quotingState [] words rest
          | escapeRuneClass => scan escapingState [] words rest
          | commentRuneClass => scan commentState [] words rest
          | unknownRuneClass => scan inWordState [c] words rest
          end
      | inWordState =>
          match ClassifyRune c with
          | spaceRuneClass => scan startState [] (word :: words) rest
          | escapingQuoteRuneClass => scan quotingEscapingState value words rest
          | nonEscapingQuoteRuneClass => scan quotingState value words rest
          | escapeRuneClass => scan escapingState value words rest
          | _ => scan inWordState (c :: value) words rest
          end
      | escapingState => scan inWordState (c :: value) words rest
      | escapingQuotedState => scan quotingEscapingState (c :: value) words rest
      | quotingEscapingState =>
          match ClassifyRune c with
          | escapingQuoteRuneClass => scan inWordState value words rest
          | escapeRuneClass => scan escapingQuotedState value words rest
          | _ => scan quotingEscapingState (c :: value) words rest
          end
      | quotingState =>
          match ClassifyRune c with
          | nonEscapingQuoteRuneClass => scan inWordState value words rest
          | _ => scan quotingState (c :: value) words rest
          end
      | commentState =>
          if (N_of_ascii c =? 10)%N then scan startState [] words rest
          else scan commentState (c :: value) words rest
      end
  end.

(** The words of [s], and the error if the input ends too early. *)
Definition Split (s : string) : list string * option error :=
  scan startState [] [] (list_ascii_of_string s).

End shlex.

(** The programs on the search path of the example machine. *)
Definition installed : list string := ["notify.sh"; "echo"; "mail"].

(** The collaborators of the examples: the destination of an endpoint is its
    name, every installed program starts. *)
#[global] Instance exampleEnv : Env := {|
  Dst := endpoint.Name;
  json_Marshal := json.Marshal;
  SubstituteLabels := strtemplate.SubstituteLabels;
  shlex_Split := shlex.Split;
  LookPath := fun name => if bool_decide (name ∈ installed) then "/usr/local/bin/" +:+ name else name;
  os_Start := fun cmd =>
    if bool_decide (exec.Path cmd ∈ (fun name => "/usr/local/bin/" +:+ name) <$> installed)
    then None
    else Some ("exec: " +:+ exec.Path cmd +:+ ": executable file not found in $PATH")
|}.

(** The same collaborators with an encoder that rejects its input. *)
Definition failingJSONEnv : Env := {|
  Dst := endpoint.Name;
  json_Marshal := fun _ => ("", Some "json: unsupported value");
  SubstituteLabels := strtemplate.SubstituteLabels;
  shlex_Split := shlex.Split;
  LookPath := @LookPath exampleEnv;
  os_Start := @os_Start exampleEnv
|}.

(** ** Example inputs *)

Definition noon : time.Time :=
  {| time.Year := 2023; time.Month := 5; time.Day := 1;
     time.Hour := 12; time.Minute := 0; time.Second := 0; time.Offset := 0 |}.

Definition host1 : endpoint.Endpoint :=
  {| endpoint.Name := "host1";
     endpoint.Labels := <["zone" := "us-east"]> (<["apptype" := "backend"]> ∅) |}.

Definition diskFull : AlertInfo :=
  {| Name := "disk-full"; ProbeName := "disk"; ConditionID := "c-1"; Target := host1;
     Failures := 5; Total := 5; FailingSince := noon |}.

Definition ts_notAlerted : targetState :=
  {| alerted := false; failingSince := noon; conditionID := "c-1" |}.

Definition world0 : World := {| ts := ts_notAlerted; chan := []; trace := [] |}.

Definition handler (command : string) : AlertHandler :=
  {| name := "disk-full"; probeName := "disk";
     condition := {| configpb.Failures := 3; configpb.Total := 5 |};
     notifyCh := Some 10%nat;
     notifyConfig := Some {| configpb.Command := command |} |}.

(** ** Vocabulary of the properties *)

(** The key of a target label in the field mapping. *)
Definition labelKey (k : string) : string := "target.label." +:+ k.

Definition reservedKeys : list string :=
  ["alert"; "probe"; "target"; "condition_id"; "failures"; "total"; "since"].

(** The delimiters of a placeholder of the example substitution. *)
Definition openBraces : list ascii := ["{"; "{"]%char.

Definition closeBraces : list ascii := ["}"; "}"]%char.

(** A string of blanks, for the example tokenizer. *)
Definition blank (s : string) : Prop :=
  Forall (fun c => shlex.ClassifyRune c = shlex.spaceRuneClass) (list_ascii_of_string s).

(** The world [w] after the effects [es]. *)
Definition after (w : World) (es : list Event) : World :=
  {| ts := ts w; chan := chan w; trace := trace w ++ es |}.

(** The log lines of [notifyCommand]. *)
Definition warnUnresolved (command : string) : Event :=
  Log WARNING "couldn't substitute all labels in command: %s" [AStr command].

Definition parseError (command : string) (err : error) : Event :=
  Log ERROR "Error parsing command line (%s): %v" [AStr command; AErr err].

Definition startingCommand (cmdParts : list string) : Event :=
  Log INFO "Starting external command: %s" [AStr (strings_Join cmdParts " ")].

Definition startError (cmd : exec.Cmd) (err : error) : Event :=
  Log ERROR "error while starting the cmd: %s %s. Err: %v"
    [AStr (exec.Path cmd); AStrs (exec.Args cmd); AErr err].

(** The log lines of [notify]. *)
Definition auditLog (ah : AlertHandler) (ep : endpoint.Endpoint) (totalFailures : Z)
    (t : targetState) : Event :=
  Log WARNING "ALERT (%s): target (%s), failures (%d) higher than (%d) since (%v)"
    [AStr (name ah); AStr (endpoint.Name ep); AInt totalFailures;
     AInt (configpb.Failures (condition ah)); ATime (failingSince t)].

Definition fieldsError (err : error) : Event :=
  Log ERROR "Error getting alert fields: %v" [AErr err].

(** The record [notify] builds for a call that finds the state [t]. *)
Definition alertInfoFor (ah : AlertHandler) (ep : endpoint.Endpoint) (totalFailures : Z)
    (t : targetState) : AlertInfo :=
  {| Name := name ah;
     ProbeName := probeName ah;
     ConditionID := conditionID t;
     Target := ep;
     Failures := totalFailures;
     Total := configpb.Total (condition ah);
     FailingSince := failingSince t |}.

Definition markAlerted (t : targetState) : targetState :=
  {| alerted := true; failingSince := failingSince t; conditionID := conditionID t |}.

(** The command of the guard [ah.notifyConfig != nil && Command != ""]. *)
Definition configuredCommand (ah : AlertHandler) : option string :=
  match notifyConfig ah with
  | Some cfg => if String.eqb (configpb.Command cfg) "" then None else Some (configpb.Command cfg)
  | None => None
  end.

(** What the call pushes on the channel: nothing without a channel or
    without room, else the record. *)
Definition sentOn (ah : AlertHandler) (w : World) (ai : AlertInfo) : list AlertInfo :=
  match notifyCh ah with
  | Some cap => if bool_decide (length (chan w) < cap)%nat then [ai] else []
  | None => []
  end.

(** Whether the call parks at the send. *)
Definition parksOn (ah : AlertHandler) (w : World) : bool :=
  match notifyCh ah with
  | Some cap => negb (bool_decide (length (chan w) < cap)%nat)
  | None => false
  end.

(** The world of [notify] once the record is published. *)
Definition published (ah : AlertHandler) (ep : endpoint.Endpoint) (totalFailures : Z)
    (w : World) : World :=
  let ai := alertInfoFor ah ep totalFailures (ts w) in
  {| ts := markAlerted (ts w);
     chan := chan w ++ sentOn ah w ai;
     trace := trace w ++ [auditLog ah ep totalFailures (ts w); StoreAlerted true]
                ++ (ChanSend <$> sentOn ah w ai) |}.

(** A call whose result is dropped. *)
Definition discard {A} (r : Outcome A * World) : Outcome unit * World :=
  match r with
  | (Returned _, w) => (Returned tt, w)
  | (Panicked p, w) => (Panicked p, w)
  | (Parked, w) => (Parked, w)
  end.

Definition isLogOrStart (e : Event) : Prop :=
  match e with
  | Log _ _ _ | CmdStart _ => True
  | StoreAlerted _ | ChanSend _ => False
  end.

(** The commands among the effects [es] for which [cmd.Start] was called. *)
Definition starts (es : list Event) : list exec.Cmd :=
  omap (fun e => match e with CmdStart cmd => Some cmd | _ => None end) es.

(** The commands started between the worlds [w] and [w']. *)
Definition started (w w' : World) : list exec.Cmd :=
  starts (drop (length (trace w)) (trace w')).

(** The claim that [alertFields] hands the mapping built so far to its
    caller when the encoding fails. *)
Definition mappingKeptOnEncodingError `{Env} (alertInfo : AlertInfo) : Prop :=
  ∀ data err,
    json_Marshal (labelledFields alertInfo) = (data, Some err) →
    is_Some (alertFields alertInfo).2 ∧ (alertFields alertInfo).1 = labelledFields alertInfo.

(** The claim that a dry run of a command whose tokenization succeeds
    returns the argument vector. *)
Definition dryRunReturnsArgs `{Env} (command : string) (fields : gmap string string)
    (w : World) : Prop :=
  ∀ cmdParts,
    shlex_Split (SubstituteLabels command fields).1 = (cmdParts, None) →
    ∃ w', notifyCommand Background command fields true w = (Returned cmdParts, w')
          ∧ started w w' = [].

(** The world [w] with the flag [alerted] of the per-target state at [b]. *)
Definition withAlerted (b : bool) (w : World) : World :=
  {| ts := {| alerted := b;
              failingSince := failingSince (ts w);
              conditionID := conditionID (ts w) |};
     chan := chan w;
     trace := trace w |}.

(** Whether every byte of [s] is below 0x80. *)
Definition asciiOnly (s : string) : bool :=
  forallb (json.between 0 127) (list_ascii_of_string s).

(** The strings of the alert that reach the field mapping are well-formed
    UTF-8. *)
Definition validUTF8 `{Env} (alertInfo : AlertInfo) : Prop :=
  json.ValidString (Name alertInfo) = true
  ∧ json.ValidString (ProbeName alertInfo) = true
  ∧ json.ValidString (Dst (Target alertInfo)) = true
  ∧ json.ValidString (ConditionID alertInfo) = true
  ∧ map_Forall (λ k v, json.ValidString k = true ∧ json.ValidString v = true)
      (endpoint.Labels (Target alertInfo)).

(** The claim that the value of the key [json] decodes, with [Unmarshal], to
    the mapping that [alertFields] returns without that key. *)
Definition jsonRoundTrips `{Env} (Unmarshal : string → option (gmap string string))
    (alertInfo : AlertInfo) : Prop :=
  ∀ fields,
    alertFields alertInfo = (fields, None) →
    ∃ data, fields !! "json" = Some data ∧ Unmarshal data = Some (delete "json" fields).

(** The bytes of U+FFFD, the replacement character. *)
Definition replacementChar : string :=
  String (ascii_of_N 239) (String (ascii_of_N 191) (String (ascii_of_N 189) "")).

(** The alert [diskFull] for a target whose label [zone] holds the byte
    0xFF, which is not UTF-8, and the same alert with the byte 0xFE at its
    place. *)
Definition garbled : AlertInfo :=
  {| Name := "disk-full"; ProbeName := "disk"; ConditionID := "c-1";
     Target := {| endpoint.Name := "host1";
                  endpoint.Labels := {["zone" := String (ascii_of_N 255) "east"]} |};
     Failures := 5; Total := 5; FailingSince := noon |}.

Definition mangled : AlertInfo :=
  {| Name := "disk-full"; ProbeName := "disk"; ConditionID := "c-1";
     Target := {| endpoint.Name := "host1";
                  endpoint.Labels := {["zone" := String (ascii_of_N 254) "east"]} |};
     Failures := 5; Total := 5; FailingSince := noon |}.

(** * Properties *)

(** ** Library values *)

(** [Itoa] prints the decimal numeral of its argument: reading it back
    gives the argument. *)
Lemma Atoi_Itoa (i : Z) : Atoi (Itoa i) = Some i.
Proof.
  unfold Atoi, Itoa.
  assert (Hd : NilZero.int_of_string (NilZero.string_of_int (Z.to_int i)) = Some (Z.to_int i)).
  { apply NilZero.isi; destruct i as [|p|p]; simpl; try discriminate.
    all: intros Hp; injection Hp as Hp; exact (DecimalPos.Unsigned.to_uint_nonnil p Hp). }
  rewrite Hd. simpl. f_equal. apply DecimalZ.of_to.
Qed.

(** The RFC3339 form of some times: UTC, zones east and west of it, an
    offset of less than a minute, which prints as [+00:00], and a year
    before the year 0. *)
Example Format_RFC3339_zones :
  let at_ (year offset : Z) : time.Time :=
    {| time.Year := year; time.Month := 5; time.Day := 1;
       time.Hour := 12; time.Minute := 0; time.Second := 7; time.Offset := offset |} in
  time.Format_RFC3339 (at_ 2023 0) = "2023-05-01T12:00:07Z"
  ∧ time.Format_RFC3339 (at_ 2023 19800) = "2023-05-01T12:00:07+05:30"
  ∧ time.Format_RFC3339 (at_ 2023 (-19800)) = "2023-05-01T12:00:07-05:30"
  ∧ time.Format_RFC3339 (at_ 2023 (-30)) = "2023-05-01T12:00:07+00:00"
  ∧ time.Format_RFC3339 (at_ 2023 30) = "2023-05-01T12:00:07+00:00"
  ∧ time.Format_RFC3339 (at_ 2023 (-90)) = "2023-05-01T12:00:07-00:01"
  ∧ time.Format_RFC3339 (at_ (-5) 0) = "-0005-05-01T12:00:07Z"
  ∧ time.Format_RFC3339 (at_ 12345 3600) = "12345-05-01T12:00:07+01:00".
Proof. vm_compute. by repeat split. Qed.

#[global] Instance labelKey_inj : Inj (=) (=) labelKey.
Proof. intros k1 k2 Hk. unfold labelKey in Hk. by simplify_eq/=. Qed.

Lemma labelKey_not_json k : labelKey k ≠ "json".
Proof. done. Qed.

Lemma labelKey_not_reserved k : labelKey k ∉ reservedKeys.
Proof. rewrite /reservedKeys /labelKey !elem_of_cons elem_of_nil. by intros [|[|[|[|[|[|[|]]]]]]]. Qed.

(** ** The example collaborators *)

Lemma list_ascii_of_string_app (a b : string) :
  list_ascii_of_string (a +:+ b) = list_ascii_of_string a ++ list_ascii_of_string b.
Proof. induction a as [|c a IH]; first done. by rewrite /= IH. Qed.

Lemma string_of_list_ascii_app (a b : list ascii) :
  string_of_list_ascii (a ++ b) = string_of_list_ascii a +:+ string_of_list_ascii b.
Proof. induction a as [|c a IH]; first done. by rewrite /= IH. Qed.

Lemma ascii_eqb_false (c d : ascii) : c ≠ d → Ascii.eqb c d = false.
Proof. intros Hne. by apply Ascii.eqb_neq. Qed.

Section Codec.
Import json.

Lemma prepend_Some bytes s rest : prepend bytes (Some (s, rest)) = Some (bytes ++ s, rest).
Proof. done. Qed.

(** Reading the escape of a byte below 0x80 gives the byte. *)
Lemma unquote_escape_ascii c input :
  between 0 127 c = true →
  unquote (escape_ascii c ++ input) = prepend [c] (unquote input).
Proof. destruct c as [[] [] [] [] [] [] [] []]; (discriminate || reflexivity). Qed.

Lemma escape_cons b0 rest :
  escape (b0 :: rest) =
  match runeSize (b0 :: rest), rest with
  | 1%nat, _ => escape_ascii b0 ++ escape rest
  | 2%nat, b1 :: r1 => b0 :: b1 :: escape r1
  | 3%nat, b1 :: b2 :: r2 =>
      if lineSeparator b0 b1 b2
      then ["\"; "u"; "2"; "0"; "2"; hexdigit (N_of_ascii b2 mod 16)]%char ++ escape r2
      else b0 :: b1 :: b2 :: escape r2
  | 4%nat, b1 :: b2 :: b3 :: r3 => b0 :: b1 :: b2 :: b3 :: escape r3
  | _, _ => replacement_escape ++ escape rest
  end.
Proof. done. Qed.

Lemma valid_cons b0 rest :
  valid (b0 :: rest) =
  match runeSize (b0 :: rest), rest with
  | 1%nat, _ => valid rest
  | 2%nat, _ :: r1 => valid r1
  | 3%nat, _ :: _ :: r2 => valid r2
  | 4%nat, _ :: _ :: _ :: r3 => valid r3
  | _, _ => false
  end.
Proof. done. Qed.

Lemma between_spec lo hi b :
  between lo hi b = true ↔ (lo ≤ N_of_ascii b ∧ N_of_ascii b ≤ hi)%N.
Proof. rewrite /between andb_true_iff !N.leb_le. done. Qed.

(** A byte from 0x80 on is read by the size of the sequence it starts. *)
Lemma unquote_raw c rest :
  (128 ≤ N_of_ascii c)%N →
  unquote (c :: rest) =
  match runeSize (c :: rest), rest with
  | 1%nat, _ => prepend [c] (unquote rest)
  | 2%nat, b1 :: r1 => prepend [c; b1] (unquote r1)
  | 3%nat, b1 :: b2 :: r2 => prepend [c; b1; b2] (unquote r2)
  | 4%nat, b1 :: b2 :: b3 :: r3 => prepend [c; b1; b2; b3] (unquote r3)
  | _, _ => prepend (utf8 65533) (unquote rest)
  end.
Proof.
  intros Hc. rewrite [unquote (c :: rest)]/=.
  destruct (N.eqb_spec (N_of_ascii c) 34) as [He|_]; first lia.
  destruct (N.eqb_spec (N_of_ascii c) 92) as [He|_]; first lia.
  destruct (N.ltb_spec (N_of_ascii c) 32) as [He|_]; first lia.
  done.
Qed.

Lemma runeSize_1 b0 rest : runeSize (b0 :: rest) = 1%nat → between 0 127 b0 = true.
Proof. rewrite /runeSize. repeat case_match; done. Qed.

Lemma runeSize_lead b0 rest k :
  runeSize (b0 :: rest) = S (S k) → (128 ≤ N_of_ascii b0)%N.
Proof.
  rewrite /runeSize. destruct (between 0 127 b0) eqn:Hb; first done.
  intros _. apply not_true_iff_false in Hb. rewrite between_spec in Hb. lia.
Qed.

Lemma runeSize_2_tail b0 b1 r1 input :
  runeSize (b0 :: b1 :: r1) = 2%nat → runeSize (b0 :: b1 :: input) = 2%nat.
Proof. rewrite /runeSize. repeat case_match; done. Qed.

Lemma runeSize_3_tail b0 b1 b2 r2 input :
  runeSize (b0 :: b1 :: b2 :: r2) = 3%nat → runeSize (b0 :: b1 :: b2 :: input) = 3%nat.
Proof. rewrite /runeSize. repeat case_match; done. Qed.

Lemma runeSize_4_tail b0 b1 b2 b3 r3 input :
  runeSize (b0 :: b1 :: b2 :: b3 :: r3) = 4%nat →
  runeSize (b0 :: b1 :: b2 :: b3 :: input) = 4%nat.
Proof. rewrite /runeSize. repeat case_match; done. Qed.

Lemma ascii_of_code (c : ascii) (n : N) : N_of_ascii c = n → c = ascii_of_N n.
Proof. intros <-. by rewrite ascii_N_embedding. Qed.

Lemma unquote_lineSeparator b0 b1 b2 input :
  lineSeparator b0 b1 b2 = true →
  unquote (["\"; "u"; "2"; "0"; "2"; hexdigit (N_of_ascii b2 mod 16)]%char ++ input)
  = prepend [b0; b1; b2] (unquote input).
Proof.
  rewrite /lineSeparator !andb_true_iff orb_true_iff !N.eqb_eq.
  intros [[H0%ascii_of_code H1%ascii_of_code] [H2%ascii_of_code|H2%ascii_of_code]];
    subst; reflexivity.
Qed.

#[local] Arguments runeSize : simpl never.

(** Reading the body of a well-formed string gives the string. *)
Lemma unquote_escape_valid n : ∀ s input,
  (length s ≤ n)%nat →
  valid s = true →
  unquote (escape s ++ dquote :: input) = Some (s, input).
Proof.
  induction n as [|n IH]; intros s input Hlen Hvalid.
  { destruct s; last (simpl in Hlen; lia). done. }
  destruct s as [|b0 rest]; first done.
  rewrite valid_cons in Hvalid. rewrite escape_cons.
  destruct (runeSize (b0 :: rest)) as [|[|[|[|[|k]]]]] eqn:Hk; try done.
  - rewrite -app_assoc unquote_escape_ascii; first by eapply runeSize_1.
    rewrite IH //. simpl in Hlen. lia.
  - destruct rest as [|b1 r1]; first done.
    rewrite -!app_comm_cons unquote_raw; first by eapply runeSize_lead.
    rewrite (runeSize_2_tail _ _ _ _ Hk) IH //. simpl in Hlen. lia.
  - destruct rest as [|b1 [|b2 r2]]; try done.
    destruct (lineSeparator b0 b1 b2) eqn:Hsep.
    + rewrite -app_assoc (unquote_lineSeparator b0 b1) // IH //. simpl in Hlen. lia.
    + rewrite -!app_comm_cons unquote_raw; first by eapply runeSize_lead.
      rewrite (runeSize_3_tail _ _ _ _ _ Hk) IH //. simpl in Hlen. lia.
  - destruct rest as [|b1 [|b2 [|b3 r3]]]; try done.
    rewrite -!app_comm_cons unquote_raw; first by eapply runeSize_lead.
    rewrite (runeSize_4_tail _ _ _ _ _ _ Hk) IH //. simpl in Hlen. lia.
Qed.

Lemma value_quote s input :
  ValidString s = true → value (quote s ++ input) = Some (s, input).
Proof.
  intros Hvalid.
  rewrite /quote /value -app_comm_cons -app_assoc [skip_ws _]/=.
  cbv iota beta. rewrite Ascii.eqb_refl.
  rewrite (unquote_escape_valid (length (list_ascii_of_string s))) //.
  by rewrite string_of_list_ascii_of_string.
Qed.

#[local] Arguments quote : simpl never.
#[local] Arguments value : simpl never.
#[local] Arguments member : simpl never.

Lemma members_member_close fuel k v acc :
  ValidString k = true → ValidString v = true →
  members (S fuel) (member (k, v) ++ ["}"%char]) acc = Some (<[k := v]> acc).
Proof.
  intros Hk Hv. rewrite /member /= -app_assoc value_quote //=.
  by rewrite value_quote.
Qed.

Lemma members_member_comma fuel k v input acc :
  ValidString k = true → ValidString v = true →
  members (S fuel) (member (k, v) ++ ","%char :: input) acc
  = members fuel input (<[k := v]> acc).
Proof.
  intros Hk Hv. rewrite /member /= -app_assoc value_quote //=.
  by rewrite value_quote.
Qed.

Lemma join_members_cons kv kv' kvs :
  join_members (kv :: kv' :: kvs) = member kv ++ ","%char :: join_members (kv' :: kvs).
Proof. done. Qed.

Lemma members_join kvs : ∀ fuel acc,
  Forall (λ kv, ValidString kv.1 = true ∧ ValidString kv.2 = true) kvs →
  kvs ≠ [] → (length kvs ≤ fuel)%nat →
  members fuel (join_members kvs ++ ["}"%char]) acc
  = Some (foldl (λ acc kv, <[kv.1 := kv.2]> acc) acc kvs).
Proof.
  induction kvs as [|[k v] kvs IH]; intros fuel acc Hvalid Hne Hfuel; first done.
  apply Forall_cons in Hvalid as [[Hk Hv] Hvalid].
  destruct fuel as [|fuel]; first (simpl in Hfuel; lia).
  destruct kvs as [|kv' kvs].
  - rewrite [join_members _]/=. etrans; first by apply members_member_close. done.
  - rewrite join_members_cons -app_assoc -app_comm_cons.
    etrans; first by apply members_member_comma.
    rewrite IH //. simpl in *. lia.
Qed.

Lemma length_join_members kvs : (length kvs ≤ length (join_members kvs))%nat.
Proof.
  induction kvs as [|kv [|kv' kvs] IH]; first done.
  - rewrite /= /member /quote /= length_app /=. lia.
  - rewrite join_members_cons length_app /=. simpl in IH. lia.
Qed.

Lemma join_members_head kv kvs : ∃ tl, join_members (kv :: kvs) = dquote :: tl.
Proof. destruct kvs; rewrite /= /member /quote /=; eauto. Qed.

Lemma foldl_insert_list_to_map (kvs : list (string * string)) :
  ∀ acc : gmap string string,
  NoDup kvs.*1 →
  foldl (λ acc kv, <[kv.1 := kv.2]> acc) acc kvs = list_to_map kvs ∪ acc.
Proof.
  induction kvs as [|[k v] kvs IH]; intros acc Hnd.
  - by rewrite /= (left_id_L ∅ (∪)).
  - apply NoDup_cons in Hnd as [Hk Hnd].
    rewrite /= IH // -insert_union_l -insert_union_r //.
    by apply not_elem_of_list_to_map.
Qed.

(** The example encoder has no error case. *)
Lemma Marshal_no_error (m : gmap string string) : (Marshal m).2 = None.
Proof. done. Qed.

(** Decoding the encoding of a string map whose keys and values are
    well-formed UTF-8 gives the map back. *)
Lemma Unmarshal_Marshal (m : gmap string string) :
  map_Forall (λ k v, ValidString k = true ∧ ValidString v = true) m →
  Unmarshal (Marshal m).1 = Some m.
Proof.
  intros Hvalid.
  rewrite /Unmarshal /Marshal /= list_ascii_of_string_of_list_ascii.
  pose proof (merge_sort_Permutation key_le (map_to_list m)) as Hperm.
  destruct (merge_sort key_le (map_to_list m)) as [|kv kvs] eqn:Hsort.
  - apply Permutation_nil_l in Hperm. symmetry in Hperm.
    apply map_to_list_empty_iff in Hperm as ->. done.
  - set (sorted := kv :: kvs) in *.
    assert (Hlen := length_join_members sorted).
    destruct (join_members_head kv kvs) as [tl Hhead].
    rewrite -/sorted in Hhead.
    rewrite {1}Hhead [skip_ws _]/=. cbv iota beta.
    change (Ascii.eqb dquote "}") with false. cbv iota.
    rewrite members_join //.
    + apply Forall_forall. intros [k v] Hin. rewrite Hperm in Hin.
      apply elem_of_map_to_list in Hin. by apply (Hvalid k v).
    + rewrite length_app. lia.
    + f_equal. rewrite foldl_insert_list_to_map.
      * rewrite Hperm. apply NoDup_fst_map_to_list.
      * rewrite (right_id_L ∅ (∪)).
        rewrite -[RHS](list_to_map_to_list m).
        apply list_to_map_proper; last done.
        rewrite Hperm. apply NoDup_fst_map_to_list.
Qed.

End Codec.

Section Substitute.
Import strtemplate.

Lemma substitute_plain labels pre input :
  "{"%char ∉ pre →
  substitute labels None (pre ++ input) =
  let '(out, foundAll) := substitute labels None input in (pre ++ out, foundAll).
Proof.
  induction pre as [|c pre IH]; intros Hpre.
  { by destruct (substitute _ _ _). }
  apply not_elem_of_cons in Hpre as [Hc Hpre].
  rewrite -app_comm_cons. rewrite [substitute _ _ (c :: _)]/=.
  destruct (pre ++ input) as [|c' rest'] eqn:Hrest.
  - apply app_eq_nil in Hrest as [-> ->]. done.
  - rewrite ascii_eqb_false; first by apply not_eq_sym.
    rewrite IH //=. by destruct (substitute _ _ input).
Qed.

Lemma substitute_name labels k : ∀ acc input,
  "}"%char ∉ k →
  substitute labels (Some acc) (k ++ closeBraces ++ input) =
  let '(out, foundAll) := substitute labels None input in
  match labels !! string_of_list_ascii (rev acc ++ k) with
  | Some v => (list_ascii_of_string v ++ out, foundAll)
  | None => (openBraces ++ (rev acc ++ k) ++ closeBraces ++ out, false)
  end.
Proof.
  induction k as [|c k IH]; intros acc input Hk.
  { rewrite /= app_nil_r. by destruct (substitute _ _ _). }
  apply not_elem_of_cons in Hk as [Hc Hk].
  rewrite -app_comm_cons. rewrite [substitute _ _ (c :: _)]/=.
  destruct (k ++ closeBraces ++ input) as [|c' rest'] eqn:Hrest.
  { destruct k; discriminate Hrest. }
  rewrite ascii_eqb_false; first by apply not_eq_sym.
  rewrite IH //= -!app_assoc /=. by destruct (k ++ _).
Qed.

(** A placeholder after plain text is replaced by the value of its field, or
    stays as it is when there is no such field, and then not all
    placeholders were found. *)
Lemma substitute_placeholder labels pre k input :
  "{"%char ∉ pre → "}"%char ∉ k →
  substitute labels None (pre ++ openBraces ++ k ++ closeBraces ++ input) =
  let '(out, foundAll) := substitute labels None input in
  match labels !! string_of_list_ascii k with
  | Some v => (pre ++ list_ascii_of_string v ++ out, foundAll)
  | None => (pre ++ openBraces ++ k ++ closeBraces ++ out, false)
  end.
Proof.
  intros Hpre Hk. rewrite substitute_plain //.
  rewrite [substitute _ _ (openBraces ++ _)]/=.
  replace (k ++ "}"%char :: "}"%char :: input) with (k ++ closeBraces ++ input) by done.
  rewrite substitute_name //=.
  destruct (substitute labels None input) as [out foundAll].
  by destruct (labels !! _).
Qed.

(** The same on strings: the placeholder of [k] after the plain text
    [pre], followed by [post]. *)
Lemma SubstituteLabels_placeholder labels (pre k post : string) :
  "{"%char ∉ list_ascii_of_string pre →
  "}"%char ∉ list_ascii_of_string k →
  SubstituteLabels (pre +:+ "{{" +:+ k +:+ "}}" +:+ post) labels =
  let '(out, foundAll) := SubstituteLabels post labels in
  match labels !! k with
  | Some v => (pre +:+ v +:+ out, foundAll)
  | None => (pre +:+ "{{" +:+ k +:+ "}}" +:+ out, false)
  end.
Proof.
  intros Hpre Hk. rewrite /SubstituteLabels !list_ascii_of_string_app.
  change (list_ascii_of_string "{{") with openBraces.
  change (list_ascii_of_string "}}") with closeBraces.
  rewrite substitute_placeholder // string_of_list_ascii_of_string.
  destruct (substitute labels None (list_ascii_of_string post)) as [out foundAll].
  destruct (labels !! k) as [v|].
  - by rewrite !string_of_list_ascii_app !string_of_list_ascii_of_string.
  - by rewrite !string_of_list_ascii_app !string_of_list_ascii_of_string.
Qed.

(** A string without an opening brace has no placeholder. *)
Lemma SubstituteLabels_plain labels (s : string) :
  "{"%char ∉ list_ascii_of_string s → SubstituteLabels s labels = (s, true).
Proof.
  intros Hs. rewrite /SubstituteLabels -(app_nil_r (list_ascii_of_string s)).
  by rewrite substitute_plain //= app_nil_r string_of_list_ascii_of_string.
Qed.

End Substitute.

Section Tokens.
Import shlex.

(** A string of blanks has no word. *)
Lemma scan_blank input words :
  Forall (λ c, ClassifyRune c = spaceRuneClass) input →
  scan startState [] words input = (rev words, None).
Proof.
  induction 1 as [|c input Hc _ IH]; first done.
  by rewrite /= Hc.
Qed.

Lemma Split_blank (s : string) : blank s → Split s = ([], None).
Proof. apply scan_blank. Qed.

Lemma blank_plain (s : string) : blank s → "{"%char ∉ list_ascii_of_string s.
Proof.
  rewrite /blank Forall_forall. intros Hs Hin. by apply Hs in Hin.
Qed.

(** An input that ends inside single quotes is an error. *)
Lemma scan_unclosed_quote input value words :
  Forall (λ c, ClassifyRune c ≠ nonEscapingQuoteRuneClass) input →
  (scan quotingState value words input).2
  = Some "EOF found when expecting closing quote"%string.
Proof.
  intros Hin. revert value. induction Hin as [|c input Hc _ IH]; intros value; first done.
  rewrite /=. destruct (ClassifyRune c); try done; apply IH.
Qed.

End Tokens.

(** ** The field mapping *)

Section Fields.
Context {env : Env}.

(** The loop over the labels adds the labels under their keys, whatever the
    order of the visit. *)
Lemma rangeLabels_union kvs (fields : gmap string string) :
  NoDup kvs.*1 →
  rangeLabels kvs fields = list_to_map (prod_map labelKey id <$> kvs) ∪ fields.
Proof.
  revert fields. induction kvs as [|[k v] kvs IH]; intros fields Hnd.
  - by rewrite /= (left_id_L ∅ (∪)).
  - apply NoDup_cons in Hnd as [Hk Hnd].
    rewrite /= IH //. rewrite -insert_union_l -insert_union_r //.
    apply not_elem_of_list_to_map. rewrite -list_fmap_compose.
    intros (kv & Heq & Hin)%list_elem_of_fmap. simpl in Heq.
    apply (inj labelKey) in Heq. subst k.
    apply Hk. apply list_elem_of_fmap. by exists kv.
Qed.

Lemma rangeLabels_any_order kvs (labels fields : gmap string string) :
  kvs ≡ₚ map_to_list labels →
  rangeLabels kvs fields = kmap labelKey labels ∪ fields.
Proof.
  intros Hp. rewrite rangeLabels_union.
  { rewrite Hp. apply NoDup_fst_map_to_list. }
  unfold kmap. f_equal. apply list_to_map_proper; last by rewrite Hp.
  rewrite -list_fmap_compose.
  assert (Hn : NoDup (map_to_list labels).*1) by apply NoDup_fst_map_to_list.
  rewrite -Hp in Hn.
  replace ((fst ∘ prod_map labelKey id) <$> kvs) with (labelKey <$> kvs.*1)
    by (rewrite -list_fmap_compose; done).
  by apply (NoDup_fmap_2 labelKey).
Qed.

Lemma labelledFields_union alertInfo :
  labelledFields alertInfo =
  kmap labelKey (endpoint.Labels (Target alertInfo)) ∪ reservedFields alertInfo.
Proof. by apply rangeLabels_any_order. Qed.

Lemma reservedFields_label alertInfo k : reservedFields alertInfo !! labelKey k = None.
Proof. unfold reservedFields, labelKey. by rewrite !lookup_insert_ne. Qed.

Lemma dom_reservedFields alertInfo :
  dom (reservedFields alertInfo) = list_to_set reservedKeys.
Proof. unfold reservedFields. rewrite !dom_insert_L dom_empty_L /=. set_solver. Qed.

Lemma size_reservedFields alertInfo : size (reservedFields alertInfo) = 7%nat.
Proof.
  rewrite /reservedFields.
  do 7 (rewrite map_size_insert_None; first by rewrite ?lookup_insert_ne).
  by rewrite map_size_empty.
Qed.

Lemma lookup_labelledFields_label alertInfo k :
  labelledFields alertInfo !! labelKey k = endpoint.Labels (Target alertInfo) !! k.
Proof.
  rewrite labelledFields_union lookup_union (lookup_kmap labelKey) reservedFields_label.
  by destruct (_ !! k).
Qed.

Lemma lookup_labelledFields_other alertInfo key :
  (∀ k, key ≠ labelKey k) →
  labelledFields alertInfo !! key = reservedFields alertInfo !! key.
Proof.
  intros Hkey. rewrite labelledFields_union lookup_union.
  destruct (kmap labelKey _ !! key) as [v|] eqn:Hl; last by rewrite (left_id_L None _).
  apply (lookup_kmap_Some labelKey) in Hl as (k & -> & _). by destruct (Hkey k).
Qed.

Lemma labelledFields_json alertInfo : labelledFields alertInfo !! "json" = None.
Proof. rewrite lookup_labelledFields_other //. Qed.

Lemma dom_labelledFields alertInfo :
  dom (labelledFields alertInfo) =
  list_to_set reservedKeys ∪ set_map labelKey (dom (endpoint.Labels (Target alertInfo))).
Proof.
  rewrite labelledFields_union dom_union_L dom_reservedFields (dom_kmap_L labelKey).
  set_solver.
Qed.

Lemma size_kmap_labelKey (labels : gmap string string) :
  size (kmap (M2 := gmap string) labelKey labels) = size labels.
Proof.
  by rewrite -!length_map_to_list (map_to_list_kmap labelKey) length_fmap.
Qed.

Lemma size_labelledFields alertInfo :
  size (labelledFields alertInfo) = (7 + size (endpoint.Labels (Target alertInfo)))%nat.
Proof.
  rewrite labelledFields_union map_size_disj_union.
  - apply map_disjoint_spec. intros key v1 v2 Hl Hr.
    apply (lookup_kmap_Some labelKey) in Hl as (k & -> & _).
    by rewrite reservedFields_label in Hr.
  - rewrite size_reservedFields size_kmap_labelKey. lia.
Qed.

Lemma alertFields_ok alertInfo fields :
  alertFields alertInfo = (fields, None) →
  ∃ data, json_Marshal (labelledFields alertInfo) = (data, None)
          ∧ fields = <["json" := data]> (labelledFields alertInfo).
Proof.
  rewrite /alertFields. destruct (json_Marshal _) as [data [err|]]; first done.
  intros [= <-]. by exists data.
Qed.
End Fields.

(** ** The encoding of the field mapping *)

Section Encoding.
Context {env : Env}.
Import json.

Lemma runeSize_ascii c rest : between 0 127 c = true → runeSize (c :: rest) = 1%nat.
Proof. intros Hc. by rewrite /runeSize Hc. Qed.

Lemma valid_ascii_app (a b : list ascii) :
  forallb (between 0 127) a = true → valid (a ++ b) = valid b.
Proof.
  induction a as [|c a IH]; first done.
  intros [Hc Ha]%andb_true_iff.
  by rewrite -app_comm_cons valid_cons runeSize_ascii // IH.
Qed.

Lemma asciiOnly_app (a b : string) : asciiOnly (a +:+ b) = asciiOnly a && asciiOnly b.
Proof. by rewrite /asciiOnly list_ascii_of_string_app forallb_app. Qed.

Lemma ValidString_app (a b : string) :
  asciiOnly a = true → ValidString b = true → ValidString (a +:+ b) = true.
Proof.
  intros Ha Hb. by rewrite /ValidString list_ascii_of_string_app valid_ascii_app.
Qed.

Lemma asciiOnly_valid (s : string) : asciiOnly s = true → ValidString s = true.
Proof.
  intros Hs. rewrite /ValidString -(app_nil_r (list_ascii_of_string s)).
  by rewrite valid_ascii_app.
Qed.

Lemma asciiOnly_string_of_uint d : asciiOnly (NilEmpty.string_of_uint d) = true.
Proof. induction d; done. Qed.

Lemma asciiOnly_Itoa (i : Z) : asciiOnly (Itoa i) = true.
Proof.
  rewrite /Itoa /NilZero.string_of_int.
  destruct (Z.to_int i) as [d|d]; rewrite /NilZero.string_of_uint.
  - destruct d; try done; apply (asciiOnly_string_of_uint (_ d)).
  - change (String "-" ?s) with ("-" +:+ s). rewrite asciiOnly_app.
    destruct d; try done; apply (asciiOnly_string_of_uint (_ d)).
Qed.

Lemma asciiOnly_append (a b : string) :
  asciiOnly a = true → asciiOnly b = true → asciiOnly (a +:+ b) = true.
Proof. intros Ha Hb. by rewrite asciiOnly_app Ha Hb. Qed.

Lemma asciiOnly_zeros n : asciiOnly (time.zeros n) = true.
Proof. induction n; done. Qed.

Lemma asciiOnly_pad width x : asciiOnly (time.pad width x) = true.
Proof.
  rewrite /time.pad. repeat apply asciiOnly_append.
  - by destruct (x <? 0)%Z.
  - apply asciiOnly_zeros.
  - apply asciiOnly_Itoa.
Qed.

Lemma asciiOnly_zone offset : asciiOnly (time.zone offset) = true.
Proof.
  rewrite /time.zone. destruct (offset =? 0)%Z; first done.
  cbv zeta. apply asciiOnly_append; first by destruct (_ <? 0)%Z.
  apply asciiOnly_append; first apply asciiOnly_pad.
  apply asciiOnly_append; first done. apply asciiOnly_pad.
Qed.

Lemma asciiOnly_Format_RFC3339 t : asciiOnly (time.Format_RFC3339 t) = true.
Proof.
  rewrite /time.Format_RFC3339.
  repeat (apply asciiOnly_append; first (apply asciiOnly_pad || done)).
  apply asciiOnly_zone.
Qed.

(** Every key and value of the mapping of a well-formed alert is well-formed
    UTF-8. *)
Lemma labelledFields_valid alertInfo :
  validUTF8 alertInfo →
  map_Forall (λ k v, ValidString k = true ∧ ValidString v = true)
    (labelledFields alertInfo).
Proof.
  intros (Hname & Hprobe & Hdst & Hcond & Hlabels) key v.
  rewrite labelledFields_union lookup_union_Some_raw.
  intros [Hl|[_ Hr]].
  - apply (lookup_kmap_Some labelKey) in Hl as (k & -> & Hk).
    destruct (Hlabels k v Hk) as [Hkv Hvv]. split; last done.
    by apply ValidString_app.
  - revert Hr. rewrite /reservedFields.
    repeat (rewrite lookup_insert_Some; intros [[<- <-]|[_ Hr]]; [|revert Hr]);
      try done.
    + split; first done. apply asciiOnly_valid, asciiOnly_Itoa.
    + split; first done. apply asciiOnly_valid, asciiOnly_Itoa.
    + split; first done. apply asciiOnly_valid, asciiOnly_Format_RFC3339.
Qed.

End Encoding.

Section FieldsClaims.
Context {env : Env}.

(** C2. When [alertFields] succeeds, the keys of the mapping are exactly the
    seven reserved keys, one key [target.label.<labelname>] per target label
    and the key [json] (eight keys and one per label); the reserved keys
    hold the alert name, the probe name, the destination of the endpoint,
    the condition id, the decimal numerals of the failure count and of the
    total, and the RFC3339 form of the start of the failure streak; the key
    of a label holds the value of the label; the key [json] holds the
    encoding of all the others. *)
Theorem alertFields_mapping alertInfo fields :
  alertFields alertInfo = (fields, None) →
  dom fields =
    list_to_set reservedKeys
    ∪ set_map labelKey (dom (endpoint.Labels (Target alertInfo)))
    ∪ {["json"]}
  ∧ size fields = (8 + size (endpoint.Labels (Target alertInfo)))%nat
  ∧ fields !! "alert" = Some (Name alertInfo)
  ∧ fields !! "probe" = Some (ProbeName alertInfo)
  ∧ fields !! "target" = Some (Dst (Target alertInfo))
  ∧ fields !! "condition_id" = Some (ConditionID alertInfo)
  ∧ fields !! "failures" = Some (Itoa (Failures alertInfo))
  ∧ fields !! "failures" ≫= Atoi = Some (Failures alertInfo)
  ∧ fields !! "total" = Some (Itoa (Total alertInfo))
  ∧ fields !! "total" ≫= Atoi = Some (Total alertInfo)
  ∧ fields !! "since" = Some (time.Format_RFC3339 (FailingSince alertInfo))
  ∧ (∀ k, fields !! labelKey k = endpoint.Labels (Target alertInfo) !! k)
  ∧ ∃ data, fields !! "json" = Some data
            ∧ json_Marshal (delete "json" fields) = (data, None).
Proof.
  intros (data & Hdata & ->)%alertFields_ok.
  assert (Hres : ∀ key, key ≠ "json" → (∀ k, key ≠ labelKey k) →
            <["json" := data]> (labelledFields alertInfo) !! key
            = reservedFields alertInfo !! key).
  { intros key Hj Hl. by rewrite lookup_insert_ne // lookup_labelledFields_other. }
  split_and!.
  - rewrite dom_insert_L dom_labelledFields. set_solver.
  - rewrite map_size_insert_None; first apply labelledFields_json.
    by rewrite size_labelledFields.
  - by rewrite Hres.
  - by rewrite Hres.
  - by rewrite Hres.
  - by rewrite Hres.
  - by rewrite Hres.
  - rewrite Hres //=. apply Atoi_Itoa.
  - by rewrite Hres.
  - rewrite Hres //=. apply Atoi_Itoa.
  - by rewrite Hres.
  - intros k. rewrite lookup_insert_ne; first by apply not_eq_sym, labelKey_not_json.
    apply lookup_labelledFields_label.
  - exists data. rewrite lookup_insert_eq. split; first done.
    by rewrite delete_insert_id; first apply labelledFields_json.
Qed.



(** The value of the key [json] does not describe itself: it is the encoding
    of a mapping without that key. *)
Lemma alertFields_json_not_self alertInfo fields :
  alertFields alertInfo = (fields, None) →
  ∃ data, fields !! "json" = Some data
          ∧ json_Marshal (labelledFields alertInfo) = (data, None)
          ∧ labelledFields alertInfo !! "json" = None
          ∧ delete "json" fields = labelledFields alertInfo.
Proof.
  intros (data & Hdata & ->)%alertFields_ok. exists data.
  rewrite lookup_insert_eq delete_insert_id; first apply labelledFields_json.
  split_and!; try done. apply labelledFields_json.
Qed.

(** When the encoding fails, [alertFields] returns the nil mapping and the
    wrapped error. *)
Lemma alertFields_error alertInfo data err :
  json_Marshal (labelledFields alertInfo) = (data, Some err) →
  alertFields alertInfo =
    (∅, Some (fmt_Errorf "error marshalling alert fields into json: " err)).
Proof. intros Hm. by rewrite /alertFields Hm. Qed.

(** [alertFields] fails only when the encoding does. *)
Lemma alertFields_total alertInfo data :
  json_Marshal (labelledFields alertInfo) = (data, None) →
  alertFields alertInfo = (<["json" := data]> (labelledFields alertInfo), None).
Proof. intros Hm. by rewrite /alertFields Hm. Qed.

End FieldsClaims.

(** Witness of C2: the alert [diskFull] with the example collaborators. *)
Lemma alertFields_mapping_witness :
  let fields := (alertFields diskFull).1 in
  alertFields diskFull = (fields, None)
  ∧ size fields = 10%nat
  ∧ fields !! "failures" = Some "5"
  ∧ fields !! "since" = Some "2023-05-01T12:00:00Z"
  ∧ fields !! "target.label.zone" = Some "us-east".
Proof.
  intros fields.
  assert (Hok : alertFields diskFull = (fields, None)) by (vm_compute; reflexivity).
  destruct (alertFields_mapping diskFull fields Hok)
    as (_ & Hsize & _ & _ & _ & _ & Hfail & _ & _ & _ & Hsince & Hlabel & _).
  split_and!; [exact Hok | exact Hsize | exact Hfail | exact Hsince | exact (Hlabel "zone")].
Defined.


(** Counterexample to C3 as stated: the label [zone] of the target of
    [garbled] holds the byte 0xFF.  The encoder writes the escape of U+FFFD
    for it, so that the value of the key [json] decodes to a mapping with
    U+FFFD in the label, not to the returned mapping; and since the alert
    [mangled], whose label holds the byte 0xFE, has the same value under
    [json], no decoder gives back the mappings of both. *)
Lemma alertFields_json_invalid_utf8 :
  alertFields garbled = ((alertFields garbled).1, None)
  ∧ (alertFields garbled).1 !! "target.label.zone" = Some (String (ascii_of_N 255) "east")
  ∧ (∃ data decoded,
        (alertFields garbled).1 !! "json" = Some data
        ∧ json.Unmarshal data = Some decoded
        ∧ decoded !! "target.label.zone" = Some (replacementChar +:+ "east")
        ∧ decoded ≠ delete "json" (alertFields garbled).1)
  ∧ (alertFields mangled).1 !! "json" = (alertFields garbled).1 !! "json"
  ∧ ¬ jsonRoundTrips json.Unmarshal garbled
  ∧ ∀ Unmarshal, ¬ (jsonRoundTrips Unmarshal garbled ∧ jsonRoundTrips Unmarshal mangled).
Proof.
  assert (Hg : alertFields garbled = ((alertFields garbled).1, None))
    by (vm_compute; reflexivity).
  assert (Hr : alertFields mangled = ((alertFields mangled).1, None))
    by (vm_compute; reflexivity).
  assert (Hsame : (alertFields mangled).1 !! "json" = (alertFields garbled).1 !! "json")
    by (vm_compute; reflexivity).
  assert (Hne : delete "json" (alertFields mangled).1 ≠ delete "json" (alertFields garbled).1).
  { intros Heq. apply (f_equal (lookup "target.label.zone")) in Heq.
    vm_compute in Heq. discriminate Heq. }
  assert (Hboth : ∀ Unmarshal,
            ¬ (jsonRoundTrips Unmarshal garbled ∧ jsonRoundTrips Unmarshal mangled)).
  { intros Unmarshal [Hcg Hcr].
    destruct (Hcg _ Hg) as (dg & Hdg & Hug). destruct (Hcr _ Hr) as (dr & Hdr & Hur).
    rewrite Hsame Hdg in Hdr. injection Hdr as <-.
    rewrite Hug in Hur. apply (inj Some) in Hur. apply Hne. by symmetry. }
  split_and!; [exact Hg | vm_compute; reflexivity | | exact Hsame | | exact Hboth].
  - exists (json.Marshal (labelledFields garbled)).1,
      (default ∅ (json.Unmarshal (json.Marshal (labelledFields garbled)).1)).
    split_and!; try (vm_compute; reflexivity).
    intros Heq. apply (f_equal (lookup "target.label.zone")) in Heq.
    vm_compute in Heq. discriminate Heq.
  - intros Hcg. destruct (Hcg _ Hg) as (dg & Hdg & Hug).
    vm_compute in Hdg. injection Hdg as <-.
    apply (f_equal (λ m, m ≫= lookup "target.label.zone")) in Hug.
    vm_compute in Hug. discriminate Hug.
Qed.

(** With the example collaborators [alertFields] always succeeds, and the
    value of the key [json] of a well-formed alert decodes to the other
    fields. *)
Lemma alertFields_example_roundtrip alertInfo :
  validUTF8 alertInfo →
  ∃ fields data,
    alertFields alertInfo = (fields, None)
    ∧ fields !! "json" = Some data
    ∧ json.Unmarshal data = Some (delete "json" fields).
Proof.
  intros Hvalid.
  pose proof (alertFields_total alertInfo (json.Marshal (labelledFields alertInfo)).1 eq_refl)
    as Hok.
  destruct (alertFields_json_not_self _ _ Hok) as (data & Hjson & Hdata & _ & Hdel).
  eexists _, data. split_and!; [exact Hok | exact Hjson |].
  rewrite Hdel. injection Hdata as <-. apply Unmarshal_Marshal.
  by apply labelledFields_valid.
Qed.

(** ** Worlds and traces *)

Lemma emit_run e w : emit e w = (Returned tt, after w [e]).
Proof. done. Qed.

Lemma after_nil w : after w [] = w.
Proof. destruct w. rewrite /after /=. by rewrite app_nil_r. Qed.

Lemma after_after w es1 es2 : after (after w es1) es2 = after w (es1 ++ es2).
Proof. rewrite /after /=. by rewrite -app_assoc. Qed.

Lemma started_after w es : started w (after w es) = starts es.
Proof. by rewrite /started /after /= drop_app_length. Qed.

Lemma starts_app es1 es2 : starts (es1 ++ es2) = starts es1 ++ starts es2.
Proof. apply omap_app. Qed.

(** ** The command dispatch *)

Section Command.
Context {env : Env}.

(** The result of [notifyCommand], by the results of the substitution, of
    the tokenizer and of the process start. *)
Lemma notifyCommand_run ctx command fields dryRun w res foundAll cmdParts err :
  SubstituteLabels command fields = (res, foundAll) →
  shlex_Split res = (cmdParts, err) →
  notifyCommand ctx command fields dryRun w =
    let warn := if foundAll then [] else [warnUnresolved command] in
    match err with
    | Some err => (Returned [], after w (warn ++ [parseError res err]))
    | None =>
        match cmdParts with
        | [] => (Panicked (SliceBoundsOutOfRange 1 0), after w (warn ++ [startingCommand cmdParts]))
        | cmdParts0 :: args =>
            let cmd := {| exec.Path := LookPath cmdParts0; exec.Args := cmdParts0 :: args |} in
            if dryRun
            then (Returned (cmdParts0 :: args), after w (warn ++ [startingCommand cmdParts]))
            else
              match os_Start cmd with
              | Some err =>
                  (Returned [],
                   after w (warn ++ [startingCommand cmdParts; CmdStart cmd; startError cmd err]))
              | None =>
                  (Returned [], after w (warn ++ [startingCommand cmdParts; CmdStart cmd]))
              end
        end
    end.
Proof.
  intros Hs Ht. rewrite /notifyCommand Hs Ht.
  destruct w as [t c tr].
  destruct foundAll, err as [e|];
    rewrite /= /mbind /M_bind /= ?emit_run /after /= ?app_nil_r -?app_assoc //=.
  all: destruct cmdParts as [|p0 args];
    rewrite /= /slice_from /index /= // /exec_CommandContext /= ?drop_0.
  all: destruct dryRun; rewrite //= /cmd_Start /mbind /M_bind /= /mret /M_ret /=.
  all: destruct (os_Start _); rewrite /= /after /= -?app_assoc //=.
Qed.

(** [notifyCommand] leaves the per-target state and the channel alone, and
    its effects are log lines and process starts. *)
Lemma notifyCommand_effects ctx command fields dryRun w :
  ∃ es, (notifyCommand ctx command fields dryRun w).2 = after w es
        ∧ Forall isLogOrStart es.
Proof.
  destruct (SubstituteLabels command fields) as [res foundAll] eqn:Hs.
  destruct (shlex_Split res) as [cmdParts err] eqn:Ht.
  rewrite (notifyCommand_run _ _ _ _ _ _ _ _ _ Hs Ht).
  destruct foundAll, err as [e|], cmdParts as [|p0 args], dryRun; simpl;
    try destruct (os_Start _); simpl;
    eexists; (split; [reflexivity|]); repeat constructor.
Qed.

(** C6. When the tokenization of the substituted command fails,
    [notifyCommand] logs the error, after the warning of an incomplete
    substitution if there is one, starts no process, changes nothing else,
    and returns the nil vector. *)
Theorem notifyCommand_tokenization_error ctx command fields dryRun w res foundAll cmdParts err :
  SubstituteLabels command fields = (res, foundAll) →
  shlex_Split res = (cmdParts, Some err) →
  ∃ w',
    notifyCommand ctx command fields dryRun w = (Returned [], w')
    ∧ trace w' = trace w ++ (if foundAll then [] else [warnUnresolved command])
                   ++ [parseError res err]
    ∧ started w w' = []
    ∧ ts w' = ts w
    ∧ chan w' = chan w.
Proof.
  intros Hs Ht. rewrite (notifyCommand_run _ _ _ _ _ _ _ _ _ Hs Ht) /=.
  eexists. split; first reflexivity.
  rewrite started_after starts_app. by destruct foundAll.
Qed.

(** C7. When the substitution reports an unresolved placeholder, it still
    gives a string; [notifyCommand] logs the warning first and goes on with
    that string: it is the string the tokenizer reads, the parse error is
    about it, and its words are the command that is returned or started. *)
Theorem notifyCommand_unresolved_placeholder ctx command fields dryRun w res cmdParts err :
  SubstituteLabels command fields = (res, false) →
  shlex_Split res = (cmdParts, err) →
  let r := notifyCommand ctx command fields dryRun w in
  (∃ later, trace r.2 = trace w ++ warnUnresolved command :: later)
  ∧ match err, cmdParts with
    | Some err, _ =>
        r = (Returned [], after w [warnUnresolved command; parseError res err])
    | None, [] =>
        r = (Panicked (SliceBoundsOutOfRange 1 0),
             after w [warnUnresolved command; startingCommand []])
    | None, cmdParts0 :: args =>
        let cmd := {| exec.Path := LookPath cmdParts0; exec.Args := cmdParts0 :: args |} in
        if dryRun
        then r = (Returned (cmdParts0 :: args),
                  after w [warnUnresolved command; startingCommand cmdParts])
        else r.1 = Returned [] ∧ started w r.2 = [cmd]
    end.
Proof.
  intros Hs Ht r. subst r. rewrite (notifyCommand_run _ _ _ _ _ _ _ _ _ Hs Ht) /=.
  destruct err as [e|]; first by eauto.
  destruct cmdParts as [|p0 args]; first by eauto.
  destruct dryRun; first by eauto.
  destruct (os_Start _); rewrite /= started_after /=; eauto.
Qed.

(** C8, amended. When the tokenization of the substituted command succeeds
    with at least one word, a dry run starts no process and returns the
    argument vector of the command: the first word, which names the
    executable, and then the remaining words. *)
Theorem notifyCommand_dryRun ctx command fields w res foundAll cmdParts0 args :
  SubstituteLabels command fields = (res, foundAll) →
  shlex_Split res = (cmdParts0 :: args, None) →
  ∃ w',
    notifyCommand ctx command fields true w = (Returned (cmdParts0 :: args), w')
    ∧ cmdParts0 :: args = exec.Args (exec_CommandContext ctx cmdParts0 args)
    ∧ started w w' = []
    ∧ trace w' = trace w ++ (if foundAll then [] else [warnUnresolved command])
                   ++ [startingCommand (cmdParts0 :: args)]
    ∧ ts w' = ts w
    ∧ chan w' = chan w.
Proof.
  intros Hs Ht. rewrite (notifyCommand_run _ _ _ _ _ _ _ _ _ Hs Ht) /=.
  eexists. split; first reflexivity.
  rewrite started_after starts_app. by destruct foundAll.
Qed.

(** C9. When the substituted command tokenizes, without error, to no word at
    all, nothing guards the operands [cmdParts[0]] and [cmdParts[1:]] of the
    call: on the empty vector the access to the first word is out of range,
    and so is the slice, which the program evaluates first; the call panics
    there, after the log line of the command, in a dry run or not. *)
Theorem notifyCommand_empty_tokens_panic ctx command fields dryRun w res foundAll :
  SubstituteLabels command fields = (res, foundAll) →
  shlex_Split res = ([], None) →
  notifyCommand ctx command fields dryRun w =
    (Panicked (SliceBoundsOutOfRange 1 0),
     after w ((if foundAll then [] else [warnUnresolved command]) ++ [startingCommand []]))
  ∧ (∀ w', index (@nil string) 0 w' = (Panicked (IndexOutOfRange 0 0), w')).
Proof.
  intros Hs Ht. by rewrite (notifyCommand_run _ _ _ _ _ _ _ _ _ Hs Ht).
Qed.

(** A live call with at least one word calls [cmd.Start] once, on the
    command of these words, and returns nil whatever the start gives. *)
Lemma notifyCommand_live ctx command fields w res foundAll cmdParts0 args :
  SubstituteLabels command fields = (res, foundAll) →
  shlex_Split res = (cmdParts0 :: args, None) →
  let r := notifyCommand ctx command fields false w in
  r.1 = Returned []
  ∧ started w r.2 = [exec_CommandContext ctx cmdParts0 args].
Proof.
  intros Hs Ht r. subst r. rewrite (notifyCommand_run _ _ _ _ _ _ _ _ _ Hs Ht) /=.
  destruct (os_Start _); rewrite /= started_after starts_app; by destruct foundAll.
Qed.

End Command.

(** Witness of C6: a command with an unbalanced quote. *)
Lemma notifyCommand_tokenization_error_witness :
  SubstituteLabels "echo 'abc" ∅ = ("echo 'abc", true)
  ∧ shlex_Split "echo 'abc" = (["echo"], Some "EOF found when expecting closing quote")
  ∧ ∃ w',
      notifyCommand Background "echo 'abc" ∅ false world0 = (Returned [], w')
      ∧ trace w' =
          trace world0 ++ []
            ++ [parseError "echo 'abc" "EOF found when expecting closing quote"]
      ∧ started world0 w' = []
      ∧ ts w' = ts world0
      ∧ chan w' = chan world0.
Proof.
  split; first (vm_compute; reflexivity).
  split; first (vm_compute; reflexivity).
  apply (notifyCommand_tokenization_error Background "echo 'abc" ∅ false world0
           "echo 'abc" true ["echo"]); vm_compute; reflexivity.
Defined.

(** Witness of C7: a command with a placeholder for which there is no
    field. *)
Lemma notifyCommand_unresolved_placeholder_witness :
  SubstituteLabels "notify.sh {{target}} {{nope}}" (alertFields diskFull).1
    = ("notify.sh host1 {{nope}}", false)
  ∧ shlex_Split "notify.sh host1 {{nope}}" = (["notify.sh"; "host1"; "{{nope}}"], None)
  ∧ let r := notifyCommand Background "notify.sh {{target}} {{nope}}"
               (alertFields diskFull).1 true world0 in
    (∃ later, trace r.2
              = trace world0 ++ warnUnresolved "notify.sh {{target}} {{nope}}" :: later)
    ∧ r = (Returned ["notify.sh"; "host1"; "{{nope}}"],
           after world0 [warnUnresolved "notify.sh {{target}} {{nope}}";
                         startingCommand ["notify.sh"; "host1"; "{{nope}}"]]).
Proof.
  split; first (vm_compute; reflexivity).
  split; first (vm_compute; reflexivity).
  apply (notifyCommand_unresolved_placeholder Background "notify.sh {{target}} {{nope}}"
           (alertFields diskFull).1 true world0 "notify.sh host1 {{nope}}"
           ["notify.sh"; "host1"; "{{nope}}"] None); vm_compute; reflexivity.
Defined.

(** Counterexample to C8 as stated: the blank command tokenizes, without
    error, to no word, and its dry run returns no vector at all. *)
Lemma notifyCommand_dryRun_blank_command :
  shlex_Split (SubstituteLabels "  " ∅).1 = ([], None)
  ∧ (∀ args w', notifyCommand Background "  " ∅ true world0 ≠ (Returned args, w'))
  ∧ ¬ dryRunReturnsArgs "  " ∅ world0.
Proof.
  assert (Hrun : ∀ args w', notifyCommand Background "  " ∅ true world0 ≠ (Returned args, w')).
  { intros args w' Hrun. vm_compute in Hrun. discriminate Hrun. }
  split_and!; [vm_compute; reflexivity | exact Hrun |].
  intros Hclaim. destruct (Hclaim []) as (w' & Hret & _); first (vm_compute; reflexivity).
  exact (Hrun _ _ Hret).
Qed.

(** Witness of C8, amended: the command of the scenario of the
    specification. *)
Lemma notifyCommand_dryRun_witness :
  SubstituteLabels "notify.sh --target={{target}} --failures={{failures}}"
    (alertFields diskFull).1
    = ("notify.sh --target=host1 --failures=5", true)
  ∧ shlex_Split "notify.sh --target=host1 --failures=5"
    = (["notify.sh"; "--target=host1"; "--failures=5"], None)
  ∧ ∃ w',
      notifyCommand Background "notify.sh --target={{target}} --failures={{failures}}"
        (alertFields diskFull).1 true world0
      = (Returned ["notify.sh"; "--target=host1"; "--failures=5"], w')
      ∧ ["notify.sh"; "--target=host1"; "--failures=5"]
        = exec.Args (exec_CommandContext Background "notify.sh"
                       ["--target=host1"; "--failures=5"])
      ∧ started world0 w' = []
      ∧ trace w' =
          trace world0 ++ []
            ++ [startingCommand ["notify.sh"; "--target=host1"; "--failures=5"]]
      ∧ ts w' = ts world0
      ∧ chan w' = chan world0.
Proof.
  split; first (vm_compute; reflexivity).
  split; first (vm_compute; reflexivity).
  apply (notifyCommand_dryRun Background
           "notify.sh --target={{target}} --failures={{failures}}"
           (alertFields diskFull).1 world0
           "notify.sh --target=host1 --failures=5" true); vm_compute; reflexivity.
Defined.

(** Witness of C9: the blank command. *)
Lemma notifyCommand_empty_tokens_panic_witness :
  SubstituteLabels "  " ∅ = ("  ", true)
  ∧ shlex_Split "  " = ([], None)
  ∧ notifyCommand Background "  " ∅ true world0 =
      (Panicked (SliceBoundsOutOfRange 1 0), after world0 ([] ++ [startingCommand []]))
  ∧ (∀ w', index (@nil string) 0 w' = (Panicked (IndexOutOfRange 0 0), w')).
Proof.
  split; first (vm_compute; reflexivity).
  split; first (vm_compute; reflexivity).
  apply (notifyCommand_empty_tokens_panic Background "  " ∅ true world0 "  " true);
    vm_compute; reflexivity.
Defined.

(** With the example collaborators, a command with a placeholder for which
    there is no field keeps the placeholder as literal text: the warning is
    logged, and the string with the placeholder in it is what the tokenizer
    reads. *)
Lemma notifyCommand_literal_placeholder (pre k post : string) fields dryRun w :
  "{"%char ∉ list_ascii_of_string pre →
  "}"%char ∉ list_ascii_of_string k →
  fields !! k = None →
  let command := pre +:+ "{{" +:+ k +:+ "}}" +:+ post in
  let res := pre +:+ "{{" +:+ k +:+ "}}" +:+ (SubstituteLabels post fields).1 in
  SubstituteLabels command fields = (res, false)
  ∧ ∃ later,
      trace (notifyCommand Background command fields dryRun w).2
      = trace w ++ warnUnresolved command :: later
      ∧ match shlex_Split res with
        | (_, Some err) => later = [parseError res err]
        | (cmdParts, None) => ∃ later', later = startingCommand cmdParts :: later'
        end.
Proof.
  intros Hpre Hk Hnone command res.
  assert (Hs : SubstituteLabels command fields = (res, false)).
  { subst command res. rewrite /SubstituteLabels /= SubstituteLabels_placeholder // Hnone.
    by destruct (strtemplate.SubstituteLabels post fields). }
  split; first exact Hs.
  destruct (shlex_Split res) as [cmdParts err] eqn:Ht.
  rewrite (notifyCommand_run _ _ _ _ _ _ _ _ _ Hs Ht).
  destruct err as [e|]; first by simpl; eauto.
  destruct cmdParts as [|p0 args]; first by simpl; eauto.
  destruct dryRun; first by simpl; eauto.
  cbv zeta. destruct (os_Start _); simpl; eauto.
Qed.

(** With the example collaborators, every blank command reaches the
    unguarded operands. *)
Lemma notifyCommand_blank_command (command : string) fields dryRun w :
  blank command →
  notifyCommand Background command fields dryRun w =
    (Panicked (SliceBoundsOutOfRange 1 0), after w [startingCommand []]).
Proof.
  intros Hblank.
  assert (Hs : SubstituteLabels command fields = (command, true)).
  { by apply SubstituteLabels_plain, blank_plain. }
  assert (Ht : shlex_Split command = ([], None)) by by apply Split_blank.
  by rewrite (notifyCommand_run _ _ _ _ _ _ _ _ _ Hs Ht).
Qed.

(** ** The notification *)

Section Notify.
Context {env : Env}.

(** The result of [notify]: the call publishes the alert, and parks there
    when the channel has no room; else it logs the error of the fields, if
    any, and dispatches the configured command, if any, with the fields. *)
Lemma notify_run ah ep totalFailures w :
  notify ah ep totalFailures w =
    let ai := alertInfoFor ah ep totalFailures (ts w) in
    let w2 := published ah ep totalFailures w in
    if parksOn ah w then (Parked, w2)
    else
      let w3 :=
        after w2 (match (alertFields ai).2 with Some err => [fieldsError err] | None => [] end) in
      match configuredCommand ah with
      | Some command => discard (notifyCommand Background command (alertFields ai).1 false w3)
      | None => (Returned tt, w3)
      end.
Proof.
  destruct w as [t c tr].
  rewrite /notify /published /parksOn /sentOn /configuredCommand /=.
  rewrite /mbind /M_bind /= /chan_send /=.
  destruct (notifyCh ah) as [cap|]; simpl.
  - case_bool_decide; simpl.
    + fold (alertInfoFor ah ep totalFailures t).
      destruct (alertFields _) as [fields [err|]]; simpl.
      all: destruct (notifyConfig ah) as [cfg|]; simpl.
      all: try destruct (String.eqb _ _); simpl.
      all: rewrite /after /= -?app_assoc /= ?app_nil_r //.
      all: by destruct (notifyCommand _ _ _ _ _) as [[?|?|] ?].
    + by rewrite app_nil_r -app_assoc.
  - fold (alertInfoFor ah ep totalFailures t).
    destruct (alertFields _) as [fields [err|]]; simpl.
    all: destruct (notifyConfig ah) as [cfg|]; simpl.
    all: try destruct (String.eqb _ _); simpl.
    all: rewrite /after /= -?app_assoc /= ?app_nil_r //.
    all: by destruct (notifyCommand _ _ _ _ _) as [[?|?|] ?].
Qed.

Lemma discard_world {A} (r : Outcome A * World) : (discard r).2 = r.2.
Proof. by destruct r as [[?|?|] ?]. Qed.

(** The world [notify] ends in: the published world, and then log lines and
    process starts. *)
Lemma notify_world ah ep totalFailures w :
  ∃ later,
    (notify ah ep totalFailures w).2 = after (published ah ep totalFailures w) later
    ∧ Forall isLogOrStart later.
Proof.
  rewrite notify_run /=.
  destruct (parksOn ah w).
  { exists []. by rewrite after_nil. }
  set (fe := match (alertFields _).2 with Some err => [fieldsError err] | None => [] end).
  assert (Hfe : Forall isLogOrStart fe).
  { subst fe. destruct (alertFields _).2; repeat constructor. }
  destruct (configuredCommand ah) as [command|]; last by exists fe.
  rewrite discard_world.
  destruct (notifyCommand_effects Background command
              (alertFields (alertInfoFor ah ep totalFailures (ts w))).1 false
              (after (published ah ep totalFailures w) fe)) as (es & -> & Hes).
  exists (fe ++ es). rewrite after_after. split; first done. by apply Forall_app.
Qed.

(** C4. Every call of [notify] sets [alerted] and emits the audit line,
    whatever happens later, and hands no error to its caller: the call
    returns, unless it is parked at the channel for want of room or the
    configured command has no word at all, where it panics at the unguarded
    slice.  A failure of the encoding, of the substitution, of the tokenizer
    or of the process start ends in a return. *)
Theorem notify_always_marks_and_logs ah ep totalFailures w :
  let r := notify ah ep totalFailures w in
  let fields := (alertFields (alertInfoFor ah ep totalFailures (ts w))).1 in
  alerted (ts r.2) = true
  ∧ (∃ later, trace r.2 = trace w ++ auditLog ah ep totalFailures (ts w) :: later)
  ∧ (r.1 = Returned tt
     ∨ (r.1 = Parked ∧ parksOn ah w = true)
     ∨ (r.1 = Panicked (SliceBoundsOutOfRange 1 0)
        ∧ ∃ command, configuredCommand ah = Some command
                     ∧ shlex_Split (SubstituteLabels command fields).1 = ([], None))).
Proof.
  intros r fields. subst r. split_and!.
  - by destruct (notify_world ah ep totalFailures w) as (later & -> & _).
  - destruct (notify_world ah ep totalFailures w) as (later & -> & _).
    rewrite /after /published /= -!app_assoc /=. eauto.
  - rewrite notify_run /=.
    destruct (parksOn ah w); first by eauto.
    destruct (configuredCommand ah) as [command|]; last by eauto.
    fold fields.
    destruct (SubstituteLabels command fields) as [res foundAll] eqn:Hs.
    destruct (shlex_Split res) as [cmdParts err] eqn:Ht.
    rewrite (notifyCommand_run _ _ _ _ _ _ _ _ _ Hs Ht) /=.
    destruct err as [e|]; first by eauto.
    destruct cmdParts as [|p0 args].
    + right; right. split; first done. exists command. by rewrite Hs.
    + destruct (os_Start _); by eauto.
Qed.

(** C5. The effects of a call of [notify] come in this order: the audit
    line, the store to [alerted], the push of the record on the channel if
    there is a channel with room, and then only log lines and process
    starts, which are the error of the fields and the command dispatch. *)
Theorem notify_effect_order ah ep totalFailures w :
  ∃ later,
    trace (notify ah ep totalFailures w).2 =
      trace w
      ++ [auditLog ah ep totalFailures (ts w); StoreAlerted true]
      ++ (ChanSend <$> sentOn ah w (alertInfoFor ah ep totalFailures (ts w)))
      ++ later
    ∧ Forall isLogOrStart later
    ∧ (notifyCh ah = None →
       sentOn ah w (alertInfoFor ah ep totalFailures (ts w)) = [])
    ∧ (configuredCommand ah = None → starts later = []).
Proof.
  destruct (notify_world ah ep totalFailures w) as (later & Hw & Hlater).
  exists later. split_and!.
  - by rewrite Hw /after /published /= -!app_assoc.
  - done.
  - intros Hch. by rewrite /sentOn Hch.
  - intros Hcmd. move: Hw. rewrite notify_run /= Hcmd.
    destruct (parksOn ah w); simpl.
    + intros Hw. assert (later = []) as ->; last done.
      apply (f_equal trace) in Hw. rewrite /after /= in Hw.
      rewrite -{1}(app_nil_r (trace w ++ _)) in Hw. rewrite -!app_assoc in Hw.
      by repeat (apply app_inv_head in Hw; simpl in Hw; try injection Hw as Hw).
    + intros Hw. apply (f_equal trace) in Hw. rewrite /after /= in Hw.
      apply app_inv_head in Hw. subst later. by destruct (alertFields _).2.
Qed.

(** C10. A call of [notify] changes one field of the per-target state,
    [alerted]; [failingSince] and [conditionID] keep their values, which are
    the ones the audit line and the published record carry. *)
Theorem notify_frame ah ep totalFailures w :
  let w' := (notify ah ep totalFailures w).2 in
  ts w' =
    {| alerted := true;
       failingSince := failingSince (ts w);
       conditionID := conditionID (ts w) |}
  ∧ failingSince (ts w') = failingSince (ts w)
  ∧ conditionID (ts w') = conditionID (ts w)
  ∧ (∀ ai, ChanSend ai ∈ drop (length (trace w)) (trace w') →
           ConditionID ai = conditionID (ts w) ∧ FailingSince ai = failingSince (ts w)).
Proof.
  intros w'. subst w'.
  destruct (notify_world ah ep totalFailures w) as (later & -> & Hlater).
  split_and!; try done.
  intros ai. rewrite /after /published /= -!app_assoc drop_app_length /=.
  rewrite !elem_of_cons elem_of_app.
  intros [|[|[Hin|Hin]]]; try done.
  - apply list_elem_of_fmap in Hin as (ai' & [= ->] & Hin).
    rewrite /sentOn in Hin. destruct (notifyCh ah); last by apply elem_of_nil in Hin.
    case_bool_decide; last by apply elem_of_nil in Hin.
    by apply list_elem_of_singleton in Hin as ->.
  - rewrite Forall_forall in Hlater. by apply Hlater in Hin.
Qed.

End Notify.

Section EncodingError.
Context {env : Env}.

(** C1, amended. When the encoding of the field set fails, [alertFields]
    returns the wrapped error and the nil mapping, not the mapping built so
    far; [notify], unless it is parked at the channel, logs the error and
    still dispatches the configured command, with the empty mapping. *)
Theorem notify_encoding_error ah ep totalFailures w data err :
  let ai := alertInfoFor ah ep totalFailures (ts w) in
  let wrapped := fmt_Errorf "error marshalling alert fields into json: " err in
  json_Marshal (labelledFields ai) = (data, Some err) →
  alertFields ai = (∅, Some wrapped)
  ∧ notify ah ep totalFailures w =
      if parksOn ah w then (Parked, published ah ep totalFailures w)
      else
        let w3 := after (published ah ep totalFailures w) [fieldsError wrapped] in
        match configuredCommand ah with
        | Some command => discard (notifyCommand Background command ∅ false w3)
        | None => (Returned tt, w3)
        end.
Proof.
  intros ai wrapped Hm. subst ai wrapped.
  pose proof (alertFields_error _ _ _ Hm) as Hf.
  split; first done.
  by rewrite notify_run /= Hf /=.
Qed.

End EncodingError.

(** Counterexample to C1 as stated: with an encoder that fails, the caller
    of [alertFields] gets the nil mapping, in which the alert name is no
    longer found. *)
Lemma alertFields_error_drops_mapping :
  (@json_Marshal failingJSONEnv (@labelledFields failingJSONEnv diskFull)).2
    = Some "json: unsupported value"
  ∧ @labelledFields failingJSONEnv diskFull !! "alert" = Some "disk-full"
  ∧ (@alertFields failingJSONEnv diskFull).1 !! "alert" = None
  ∧ ¬ @mappingKeptOnEncodingError failingJSONEnv diskFull.
Proof.
  split_and!; try (vm_compute; reflexivity).
  intros Hclaim.
  destruct (Hclaim "" "json: unsupported value") as [_ Hkept]; first (vm_compute; reflexivity).
  apply (f_equal (lookup "alert")) in Hkept. vm_compute in Hkept. discriminate Hkept.
Qed.

(** Witness of C1, amended: a call with the failing encoder and a
    configured command. *)
Lemma notify_encoding_error_witness :
  let ah := handler "notify.sh {{alert}}" in
  let ai := alertInfoFor ah host1 4 (ts world0) in
  let wrapped := "error marshalling alert fields into json: json: unsupported value" in
  @json_Marshal failingJSONEnv (@labelledFields failingJSONEnv ai)
    = ("", Some "json: unsupported value")
  ∧ @alertFields failingJSONEnv ai = (∅, Some wrapped)
  ∧ @notify failingJSONEnv ah host1 4 world0 =
      discard (@notifyCommand failingJSONEnv Background "notify.sh {{alert}}" ∅ false
                 (after (published ah host1 4 world0) [fieldsError wrapped])).
Proof.
  intros ah ai wrapped.
  split; first (vm_compute; reflexivity).
  apply (notify_encoding_error (env := failingJSONEnv) ah host1 4 world0
           "" "json: unsupported value"); vm_compute; reflexivity.
Defined.

(** ** A full run *)

(** A call for the alert of the examples with a mail command: it returns,
    the state is marked, the record is queued, and the effects are the audit
    line, the store, the send, the line of the command and its start. *)
Example notify_mail :
  let ah := handler "mail -s {{alert}} {{target.label.zone}}" in
  let cmd := {| exec.Path := "/usr/local/bin/mail";
                exec.Args := ["mail"; "-s"; "disk-full"; "us-east"] |} in
  notify ah host1 4 world0 =
    (Returned tt,
     {| ts := markAlerted ts_notAlerted;
        chan := [alertInfoFor ah host1 4 ts_notAlerted];
        trace := [auditLog ah host1 4 ts_notAlerted;
                  StoreAlerted true;
                  ChanSend (alertInfoFor ah host1 4 ts_notAlerted);
                  startingCommand ["mail"; "-s"; "disk-full"; "us-east"];
                  CmdStart cmd] |}).
Proof. vm_compute. reflexivity. Qed.

(** The same call with a command whose quoting is unbalanced: no process is
    started, the failure is logged, and the call still returns with the
    state marked. *)
Example notify_unbalanced_quote :
  let ah := handler "mail -s '{{alert}}" in
  notify ah host1 4 world0 =
    (Returned tt,
     {| ts := markAlerted ts_notAlerted;
        chan := [alertInfoFor ah host1 4 ts_notAlerted];
        trace := [auditLog ah host1 4 ts_notAlerted;
                  StoreAlerted true;
                  ChanSend (alertInfoFor ah host1 4 ts_notAlerted);
                  parseError "mail -s 'disk-full" "EOF found when expecting closing quote"] |}).
Proof. vm_compute. reflexivity. Qed.

(** * Further properties of the code *)

(** ** The field mapping *)

(** X1. The loop of [alertFields] over the target labels gives the same
    mapping in whatever order the labels are visited (the order of a range
    over a Go map is not fixed). *)
Theorem rangeLabels_permutation kvs1 kvs2 (fields : gmap string string) :
  NoDup kvs1.*1 →
  kvs1 ≡ₚ kvs2 →
  rangeLabels kvs1 fields = rangeLabels kvs2 fields.
Proof.
  intros Hnd Hp.
  assert (Hnd2 : NoDup kvs2.*1) by by rewrite -Hp.
  rewrite !rangeLabels_union //. f_equal.
  apply list_to_map_proper; last by rewrite Hp.
  rewrite -list_fmap_compose.
  replace ((fst ∘ prod_map labelKey id) <$> kvs1) with (labelKey <$> kvs1.*1)
    by (rewrite -list_fmap_compose; done).
  by apply (NoDup_fmap_2 labelKey).
Qed.

(** Witness of X1: the two labels of the example endpoint, in both
    orders. *)
Lemma rangeLabels_permutation_witness :
  let kvs1 := [("zone", "us-east"); ("apptype", "backend")] in
  let kvs2 := [("apptype", "backend"); ("zone", "us-east")] in
  NoDup kvs1.*1 ∧ kvs1 ≡ₚ kvs2
  ∧ rangeLabels kvs1 (reservedFields diskFull) = rangeLabels kvs2 (reservedFields diskFull).
Proof.
  intros kvs1 kvs2.
  assert (Hnd : NoDup kvs1.*1) by (refine (bool_decide_unpack _ _); vm_compute; exact I).
  assert (Hp : kvs1 ≡ₚ kvs2) by (refine (bool_decide_unpack _ _); vm_compute; exact I).
  split_and!; [exact Hnd | exact Hp | exact (rangeLabels_permutation kvs1 kvs2 _ Hnd Hp)].
Defined.

Section MoreFields.
Context {env : Env}.

(** X2. [alertFields] returns the nil mapping exactly when it returns an
    error: a caller may test either. *)
Theorem alertFields_nil_iff_error alertInfo :
  (alertFields alertInfo).1 = ∅ ↔ is_Some (alertFields alertInfo).2.
Proof.
  rewrite /alertFields. destruct (json_Marshal _) as [data [err|]]; simpl.
  - split; [by eauto | done].
  - split.
    + intros Hempty. by apply insert_non_empty in Hempty.
    + by intros [? ?].
Qed.

End MoreFields.

(** ** The command dispatch *)

Section MoreCommand.
Context {env : Env}.

(** [notifyCommand] has no channel send: it never ends parked. *)
Lemma notifyCommand_not_parked ctx command fields dryRun w :
  (notifyCommand ctx command fields dryRun w).1 ≠ Parked.
Proof.
  destruct (SubstituteLabels command fields) as [res foundAll] eqn:Hs.
  destruct (shlex_Split res) as [cmdParts err] eqn:Ht.
  rewrite (notifyCommand_run _ _ _ _ _ _ _ _ _ Hs Ht).
  destruct err as [e|]; first done.
  destruct cmdParts as [|p0 args]; first done.
  destruct dryRun; first done.
  cbv zeta. by destruct (os_Start _).
Qed.

(** X3. [notifyCommand] leaves the per-target state and the channel as they
    are, its only effects are log lines and process starts, and it never
    ends parked. *)
Theorem notifyCommand_frame ctx command fields dryRun w :
  let r := notifyCommand ctx command fields dryRun w in
  ts r.2 = ts w
  ∧ chan r.2 = chan w
  ∧ (∃ es, trace r.2 = trace w ++ es ∧ Forall isLogOrStart es)
  ∧ r.1 ≠ Parked.
Proof.
  intros r. subst r.
  destruct (notifyCommand_effects ctx command fields dryRun w) as (es & Hw & Hes).
  split_and!; [by rewrite Hw | by rewrite Hw | rewrite Hw; by eauto |].
  apply notifyCommand_not_parked.
Qed.

(** X4. A dry run starts no process, whatever the command, the fields and
    the collaborators do: also when the tokenizer fails and when the call
    panics. *)
Theorem notifyCommand_dryRun_no_start ctx command fields w :
  started w (notifyCommand ctx command fields true w).2 = [].
Proof.
  destruct (SubstituteLabels command fields) as [res foundAll] eqn:Hs.
  destruct (shlex_Split res) as [cmdParts err] eqn:Ht.
  rewrite (notifyCommand_run _ _ _ _ _ _ _ _ _ Hs Ht).
  destruct err as [e|], cmdParts as [|p0 args];
    rewrite /= started_after starts_app; by destruct foundAll.
Qed.

(** X5. A live call whose command has at least one word calls [cmd.Start]
    exactly once, on the command whose arguments are the words and whose
    path is looked up from the first word, after the log line of the command;
    it returns nil whether the start succeeds or not, and a start error is
    logged last. *)
Theorem notifyCommand_live_start ctx command fields w res foundAll cmdParts0 args :
  SubstituteLabels command fields = (res, foundAll) →
  shlex_Split res = (cmdParts0 :: args, None) →
  let cmd := {| exec.Path := LookPath cmdParts0; exec.Args := cmdParts0 :: args |} in
  let r := notifyCommand ctx command fields false w in
  r.1 = Returned []
  ∧ started w r.2 = [cmd]
  ∧ trace r.2 =
      trace w
      ++ (if foundAll then [] else [warnUnresolved command])
      ++ [startingCommand (cmdParts0 :: args); CmdStart cmd]
      ++ match os_Start cmd with
         | Some err => [startError cmd err]
         | None => []
         end.
Proof.
  intros Hs Ht cmd r. subst r cmd.
  rewrite (notifyCommand_run _ _ _ _ _ _ _ _ _ Hs Ht).
  cbv zeta. destruct (os_Start _) as [e|];
    rewrite /= started_after starts_app; by destruct foundAll.
Qed.

(** X6. A result of [notifyCommand] that is not nil comes from a dry run,
    and is the tokenization of the substituted command: a live call never
    returns the argument vector. *)
Theorem notifyCommand_result_nonempty ctx command fields dryRun w args w' :
  notifyCommand ctx command fields dryRun w = (Returned args, w') →
  args ≠ [] →
  dryRun = true
  ∧ shlex_Split (SubstituteLabels command fields).1 = (args, None).
Proof.
  destruct (SubstituteLabels command fields) as [res foundAll] eqn:Hs.
  destruct (shlex_Split res) as [cmdParts err] eqn:Ht.
  rewrite (notifyCommand_run _ _ _ _ _ _ _ _ _ Hs Ht) /= Ht.
  destruct err as [e|]; first by intros [= <- _].
  destruct cmdParts as [|p0 rest]; first done.
  destruct dryRun; first by intros [= <- _].
  cbv zeta. by destruct (os_Start _); intros [= <- _].
Qed.


(** X8. The warning of an incomplete substitution is among the effects of
    a call exactly when the substitution reports that not all placeholders
    were found. *)
Theorem notifyCommand_warns_iff ctx command fields dryRun w :
  warnUnresolved command
    ∈ drop (length (trace w)) (trace (notifyCommand ctx command fields dryRun w).2)
  ↔ (SubstituteLabels command fields).2 = false.
Proof.
  destruct (SubstituteLabels command fields) as [res foundAll] eqn:Hs.
  destruct (shlex_Split res) as [cmdParts err] eqn:Ht.
  rewrite (notifyCommand_run _ _ _ _ _ _ _ _ _ Hs Ht).
  assert (Hgen : ∀ (out : Outcome (list string)) es,
            warnUnresolved command ∉ es →
            warnUnresolved command
              ∈ drop (length (trace w))
                  (trace (out, after w ((if foundAll then [] else [warnUnresolved command])
                                          ++ es)).2)
            ↔ (res, foundAll).2 = false).
  { intros out es Hes. rewrite /after /= drop_app_length.
    destruct foundAll; simpl.
    - split; [by intros ?%Hes | done].
    - split; first done. intros _. apply elem_of_cons. by left. }
  assert (Hne : ∀ es, Forall (λ e, e ≠ warnUnresolved command) es →
            warnUnresolved command ∉ es).
  { intros es Hall Hin. rewrite Forall_forall in Hall. by apply (Hall _ Hin). }
  destruct err as [e|]; first by apply (Hgen (Returned [])), Hne; repeat constructor.
  destruct cmdParts as [|p0 args];
    first by apply (Hgen (Panicked _)), Hne; repeat constructor.
  destruct dryRun; first by apply (Hgen (Returned _)), Hne; repeat constructor.
  cbv zeta. destruct (os_Start _);
    apply (Hgen (Returned [])), Hne; repeat constructor; done.
Qed.

End MoreCommand.

(** Witness of X3: a live mail command. *)
Lemma notifyCommand_frame_witness :
  let r := notifyCommand Background "mail -s {{alert}}" (alertFields diskFull).1 false world0 in
  ts r.2 = ts world0
  ∧ chan r.2 = chan world0
  ∧ (∃ es, trace r.2 = trace world0 ++ es ∧ Forall isLogOrStart es)
  ∧ r.1 ≠ Parked.
Proof.
  exact (notifyCommand_frame Background "mail -s {{alert}}" (alertFields diskFull).1
           false world0).
Defined.

(** Witness of X4: the dry run of the same command. *)
Lemma notifyCommand_dryRun_no_start_witness :
  started world0
    (notifyCommand Background "mail -s {{alert}}" (alertFields diskFull).1 true world0).2
  = [].
Proof.
  exact (notifyCommand_dryRun_no_start Background "mail -s {{alert}}"
           (alertFields diskFull).1 world0).
Defined.


(** Witness of X8: a command with a placeholder for which there is no
    field. *)
Lemma notifyCommand_warns_iff_witness :
  warnUnresolved "echo {{nope}}"
    ∈ drop (length (trace world0))
        (trace (notifyCommand Background "echo {{nope}}" ∅ true world0).2)
  ↔ (SubstituteLabels "echo {{nope}}" ∅).2 = false.
Proof.
  exact (notifyCommand_warns_iff Background "echo {{nope}}" ∅ true world0).
Defined.

(** Witness of X5: a mail command for the alert of the examples. *)
Lemma notifyCommand_live_start_witness :
  let fields := (alertFields diskFull).1 in
  let cmd := {| exec.Path := "/usr/local/bin/mail";
                exec.Args := ["mail"; "-s"; "disk-full"] |} in
  SubstituteLabels "mail -s {{alert}}" fields = ("mail -s disk-full", true)
  ∧ shlex_Split "mail -s disk-full" = (["mail"; "-s"; "disk-full"], None)
  ∧ let r := notifyCommand Background "mail -s {{alert}}" fields false world0 in
    r.1 = Returned []
    ∧ started world0 r.2 = [cmd]
    ∧ trace r.2 =
        trace world0 ++ []
        ++ [startingCommand ["mail"; "-s"; "disk-full"]; CmdStart cmd]
        ++ [].
Proof.
  intros fields cmd.
  assert (Hs : SubstituteLabels "mail -s {{alert}}" fields = ("mail -s disk-full", true))
    by (vm_compute; reflexivity).
  assert (Ht : shlex_Split "mail -s disk-full" = (["mail"; "-s"; "disk-full"], None))
    by (vm_compute; reflexivity).
  split; first exact Hs. split; first exact Ht.
  exact (notifyCommand_live_start Background "mail -s {{alert}}" fields world0
           "mail -s disk-full" true "mail" ["-s"; "disk-full"] Hs Ht).
Defined.

(** Witness of X6: a dry run of an echo command. *)
Lemma notifyCommand_result_nonempty_witness :
  let r := notifyCommand Background "echo hello" ∅ true world0 in
  r = (Returned ["echo"; "hello"], r.2)
  ∧ ["echo"; "hello"] ≠ []
  ∧ true = true
  ∧ shlex_Split (SubstituteLabels "echo hello" ∅).1 = (["echo"; "hello"], None).
Proof.
  intros r.
  assert (Hr : r = (Returned ["echo"; "hello"], r.2)) by (vm_compute; reflexivity).
  assert (Hne : ["echo"; "hello"] ≠ ([] : list string)) by discriminate.
  split; first exact Hr. split; first exact Hne.
  exact (notifyCommand_result_nonempty Background "echo hello" ∅ true world0
           ["echo"; "hello"] r.2 Hr Hne).
Defined.

(** ** The notification *)

Section MoreNotify.
Context {env : Env}.

(** A call that does not park at the send does not end parked. *)
Lemma notify_not_parked ah ep totalFailures w :
  parksOn ah w = false → (notify ah ep totalFailures w).1 ≠ Parked.
Proof.
  intros Hp. rewrite notify_run /= Hp.
  destruct (configuredCommand ah) as [command|]; last done.
  match goal with
  | |- (discard (notifyCommand ?c ?cmd ?f ?d ?w0)).1 ≠ _ =>
      pose proof (notifyCommand_not_parked c cmd f d w0) as Hnp;
      by destruct (notifyCommand c cmd f d w0) as [[?|?|] ?]
  end.
Qed.

(** X9. [notify] does not look at the flag [alerted]: a call on a state
    that is already marked does all that a call on an unmarked state does,
    the log line, the send and the command included. *)
Theorem notify_ignores_alerted ah ep totalFailures w b :
  notify ah ep totalFailures (withAlerted b w) = notify ah ep totalFailures w.
Proof. by rewrite !notify_run. Qed.

(** X10. Without a configured command (a nil configuration or an empty
    command string) [notify] starts no process and cannot panic; its effects
    are the audit line, the store, the send if any and, unless it parked, the
    error of the fields if any. *)
Theorem notify_without_command ah ep totalFailures w :
  configuredCommand ah = None →
  let ai := alertInfoFor ah ep totalFailures (ts w) in
  let r := notify ah ep totalFailures w in
  started w r.2 = []
  ∧ (∀ p, r.1 ≠ Panicked p)
  ∧ trace r.2 =
      trace w
      ++ [auditLog ah ep totalFailures (ts w); StoreAlerted true]
      ++ (ChanSend <$> sentOn ah w ai)
      ++ (if parksOn ah w then []
          else match (alertFields ai).2 with
               | Some err => [fieldsError err]
               | None => []
               end).
Proof.
  intros Hcmd ai r. subst ai r. rewrite notify_run. cbv zeta. rewrite Hcmd.
  assert (Hsent : starts (ChanSend <$>
                    sentOn ah w (alertInfoFor ah ep totalFailures (ts w))) = []).
  { rewrite /sentOn. destruct (notifyCh ah); last done. by case_bool_decide. }
  destruct (parksOn ah w).
  - rewrite /started /published /= drop_app_length /= app_nil_r.
    split_and!; [exact Hsent | done | done].
  - rewrite /started /after /published /= -!app_assoc drop_app_length /=.
    rewrite starts_app Hsent /=.
    split_and!; [by destruct (alertFields _).2 | done | done].
Qed.

(** X11. What [notify] does to the channel: with a nil channel, nothing,
    and the call does not park; with a channel that has room, the record is
    queued behind the messages already there; with a channel without room,
    nothing is queued and the call parks. *)
Theorem notify_channel ah ep totalFailures w :
  let ai := alertInfoFor ah ep totalFailures (ts w) in
  let r := notify ah ep totalFailures w in
  match notifyCh ah with
  | None => chan r.2 = chan w ∧ r.1 ≠ Parked
  | Some cap =>
      if bool_decide (length (chan w) < cap)%nat
      then chan r.2 = chan w ++ [ai] ∧ r.1 ≠ Parked
      else chan r.2 = chan w ∧ r.1 = Parked
  end.
Proof.
  intros ai r. subst ai r.
  pose proof (notify_not_parked ah ep totalFailures w) as Hnp.
  destruct (notify_world ah ep totalFailures w) as (later & Hw & _).
  rewrite Hw /= /sentOn.
  pose proof (notify_run ah ep totalFailures w) as Hrun.
  rewrite /parksOn in Hnp, Hrun.
  destruct (notifyCh ah) as [cap|].
  - case_bool_decide.
    + split; [done | by apply Hnp].
    + split; first by rewrite app_nil_r.
      by rewrite Hrun.
  - split; [by rewrite app_nil_r | by apply Hnp].
Qed.


(** X13. When the encoding succeeds, the command of [notify] is dispatched
    live, right after the record is published, with a mapping in which the
    current values of the handler, of the endpoint and of the per-target
    state are found: the failure count of this call, the total of the
    condition, the condition id and the start of the streak of the state. *)
Theorem notify_dispatch_fields ah ep totalFailures w command data :
  let ai := alertInfoFor ah ep totalFailures (ts w) in
  parksOn ah w = false →
  configuredCommand ah = Some command →
  json_Marshal (labelledFields ai) = (data, None) →
  ∃ fields,
    notify ah ep totalFailures w =
      discard (notifyCommand Background command fields false
                 (published ah ep totalFailures w))
    ∧ fields !! "alert" = Some (name ah)
    ∧ fields !! "probe" = Some (probeName ah)
    ∧ fields !! "target" = Some (Dst ep)
    ∧ fields !! "condition_id" = Some (conditionID (ts w))
    ∧ fields !! "failures" = Some (Itoa totalFailures)
    ∧ fields !! "total" = Some (Itoa (configpb.Total (condition ah)))
    ∧ fields !! "since" = Some (time.Format_RFC3339 (failingSince (ts w)))
    ∧ (∀ k, fields !! labelKey k = endpoint.Labels ep !! k)
    ∧ fields !! "json" = Some data.
Proof.
  intros ai Hp Hcmd Hm. subst ai.
  pose proof (alertFields_total _ _ Hm) as Hf.
  eexists. split.
  { rewrite notify_run. cbv zeta. by rewrite Hp Hcmd Hf /= after_nil. }
  assert (Hres : ∀ key, key ≠ "json" → (∀ k, key ≠ labelKey k) →
            <["json" := data]>
              (labelledFields (alertInfoFor ah ep totalFailures (ts w))) !! key
            = reservedFields (alertInfoFor ah ep totalFailures (ts w)) !! key).
  { intros key Hj Hl. by rewrite lookup_insert_ne // lookup_labelledFields_other. }
  split_and!; try by rewrite Hres.
  - intros k. rewrite lookup_insert_ne; first by apply not_eq_sym, labelKey_not_json.
    apply lookup_labelledFields_label.
  - by rewrite lookup_insert_eq.
Qed.

(** X14. A call of [notify] starts at most one process. *)
Theorem notify_at_most_one_start ah ep totalFailures w :
  (length (started w (notify ah ep totalFailures w).2) ≤ 1)%nat.
Proof.
  rewrite notify_run. cbv zeta.
  assert (Hsent : starts (ChanSend <$>
                    sentOn ah w (alertInfoFor ah ep totalFailures (ts w))) = []).
  { rewrite /sentOn. destruct (notifyCh ah); last done. by case_bool_decide. }
  destruct (parksOn ah w).
  { rewrite /started /published /= drop_app_length /= Hsent /=. lia. }
  set (fe := match (alertFields _).2 with Some err => [fieldsError err] | None => [] end).
  assert (Hfe : starts fe = []) by (subst fe; by destruct (alertFields _).2).
  destruct (configuredCommand ah) as [command|].
  - rewrite discard_world.
    destruct (SubstituteLabels command
                (alertFields (alertInfoFor ah ep totalFailures (ts w))).1)
      as [res foundAll] eqn:Hs.
    destruct (shlex_Split res) as [cmdParts err] eqn:Ht.
    rewrite (notifyCommand_run _ _ _ _ _ _ _ _ _ Hs Ht).
    assert (Hgen : ∀ es, (length (starts es) ≤ 1)%nat →
              (length (started w (after (after (published ah ep totalFailures w) fe) es))
               ≤ 1)%nat).
    { intros es Hes.
      rewrite /started /after /published /= -!app_assoc drop_app_length /=.
      by rewrite !starts_app Hsent Hfe /=. }
    destruct err as [e|]; first by apply Hgen; destruct foundAll; simpl; lia.
    destruct cmdParts as [|p0 args]; first by apply Hgen; destruct foundAll; simpl; lia.
    cbv zeta. destruct (os_Start _); apply Hgen; destruct foundAll; simpl; lia.
  - rewrite /started /after /published /= -!app_assoc drop_app_length /=.
    rewrite !starts_app Hsent Hfe /=. lia.
Qed.

(** X15. When the tokenizer rejects the configured command, [notify] still
    returns, with the state marked and no process started, and the parse
    error is the last line logged. *)
Theorem notify_tokenization_error ah ep totalFailures w command res foundAll cmdParts err :
  let ai := alertInfoFor ah ep totalFailures (ts w) in
  parksOn ah w = false →
  configuredCommand ah = Some command →
  SubstituteLabels command (alertFields ai).1 = (res, foundAll) →
  shlex_Split res = (cmdParts, Some err) →
  let r := notify ah ep totalFailures w in
  r.1 = Returned tt
  ∧ alerted (ts r.2) = true
  ∧ started w r.2 = []
  ∧ last (trace r.2) = Some (parseError res err).
Proof.
  intros ai Hp Hcmd Hs Ht r. subst ai r.
  rewrite notify_run. cbv zeta. rewrite Hp Hcmd.
  rewrite (notifyCommand_run _ _ _ _ _ _ _ _ _ Hs Ht) /=.
  assert (Hsent : starts (ChanSend <$>
                    sentOn ah w (alertInfoFor ah ep totalFailures (ts w))) = []).
  { rewrite /sentOn. destruct (notifyCh ah); last done. by case_bool_decide. }
  split_and!; try done.
  - rewrite /started /= -!app_assoc drop_app_length /= !starts_app Hsent /=.
    destruct (alertFields _).2, foundAll; done.
  - rewrite !app_assoc. apply last_snoc.
Qed.

End MoreNotify.

(** Witness of X10: a handler with an empty command. *)
Lemma notify_without_command_witness :
  let ah := handler "" in
  let r := notify ah host1 4 world0 in
  configuredCommand ah = None
  ∧ started world0 r.2 = []
  ∧ (∀ p, r.1 ≠ Panicked p).
Proof.
  intros ah r.
  assert (Hcmd : configuredCommand ah = None) by (vm_compute; reflexivity).
  destruct (notify_without_command ah host1 4 world0 Hcmd) as (Hs & Hp & _).
  split_and!; [exact Hcmd | exact Hs | exact Hp].
Defined.


(** Witness of X13: a handler whose command uses the counters. *)
Lemma notify_dispatch_fields_witness :
  let ah := handler "notify.sh {{failures}} {{total}}" in
  let ai := alertInfoFor ah host1 4 (ts world0) in
  let data := (json.Marshal (labelledFields ai)).1 in
  parksOn ah world0 = false
  ∧ configuredCommand ah = Some "notify.sh {{failures}} {{total}}"
  ∧ json_Marshal (labelledFields ai) = (data, None)
  ∧ ∃ fields,
      notify ah host1 4 world0 =
        discard (notifyCommand Background "notify.sh {{failures}} {{total}}" fields false
                   (published ah host1 4 world0))
      ∧ fields !! "failures" = Some "4"
      ∧ fields !! "total" = Some "5".
Proof.
  intros ah ai data.
  assert (Hp : parksOn ah world0 = false) by (vm_compute; reflexivity).
  assert (Hcmd : configuredCommand ah = Some "notify.sh {{failures}} {{total}}")
    by (vm_compute; reflexivity).
  assert (Hm : json_Marshal (labelledFields ai) = (data, None)) by reflexivity.
  split_and!; [exact Hp | exact Hcmd | exact Hm |].
  destruct (notify_dispatch_fields ah host1 4 world0 _ data Hp Hcmd Hm)
    as (fields & Hrun & _ & _ & _ & _ & Hf & Ht & _).
  exists fields. split_and!; [exact Hrun | exact Hf | exact Ht].
Defined.

(** Witness of X15: a handler whose command has an unbalanced quote. *)
Lemma notify_tokenization_error_witness :
  let ah := handler "mail -s '{{alert}}" in
  let ai := alertInfoFor ah host1 4 (ts world0) in
  let r := notify ah host1 4 world0 in
  parksOn ah world0 = false
  ∧ configuredCommand ah = Some "mail -s '{{alert}}"
  ∧ SubstituteLabels "mail -s '{{alert}}" (alertFields ai).1 = ("mail -s 'disk-full", true)
  ∧ shlex_Split "mail -s 'disk-full"
    = (["mail"; "-s"], Some "EOF found when expecting closing quote")
  ∧ r.1 = Returned tt
  ∧ alerted (ts r.2) = true
  ∧ started world0 r.2 = []
  ∧ last (trace r.2)
    = Some (parseError "mail -s 'disk-full" "EOF found when expecting closing quote").
Proof.
  intros ah ai r.
  do 4 (split; first (vm_compute; reflexivity)).
  apply (notify_tokenization_error ah host1 4 world0 "mail -s '{{alert}}"
           "mail -s 'disk-full" true ["mail"; "-s"]);
    vm_compute; reflexivity.
Defined.
